(** * The 2048 board engine ([src/lib/2048.ts]) and its specification

    A shallow embedding of the engine's functions, followed by the
    properties the specification states about them.

    Numbers.  A JavaScript [number] holding an integer is modelled as [Z];
    this is exact while the magnitude stays at most [2^53].  Board cells
    are taken as exact integers.  The one place where the source can leave
    that range is the seeded generator's counter [t], so the addition
    [t += 0x6d2b79f5] is modelled with the rounding of a double
    ([JS.double_of_Z]).  A value returned by a random source is a rational
    [Q]; [JS.is_double] says which rationals are doubles, and a product of
    such numbers is rounded to the nearest double ([JS.mul]), as the
    source's [*] does.

    Arrays.  [number[]] is [list Z]; reading past the end of an array
    gives [undefined], which is [None] in [cell]. *)

From Stdlib Require Import ZArith QArith Qround Qpower List Bool Lia Lqa Arith
  Sorted.
Import ListNotations.

Local Open Scope Z_scope.

(** ** JavaScript integer operators *)

Module JS.

(** [ToUint32], also [x >>> 0]. *)
Definition ToUint32 (x : Z) : Z := x mod 2 ^ 32.

(** [ToInt32], also [x | 0]. *)
Definition ToInt32 (x : Z) : Z :=
  let u := x mod 2 ^ 32 in
  if u <? 2 ^ 31 then u else u - 2 ^ 32.

(** [a ^ b] *)
Definition xor (a b : Z) : Z := Z.lxor (ToInt32 a) (ToInt32 b).

(** [a | b] *)
Definition or (a b : Z) : Z := Z.lor (ToInt32 a) (ToInt32 b).

(** [a >>> k] for a literal [0 <= k < 32] *)
Definition ushr (a k : Z) : Z := Z.shiftr (ToUint32 a) k.

(** [Math.imul(a, b)] *)
Definition imul (a b : Z) : Z := ToInt32 (ToInt32 a * ToInt32 b).

(** The double nearest to an integer [z], ties to even: integers of
    magnitude at most [2^53] are doubles; a larger one keeps its 53
    leading bits.  (Overflow to infinity, beyond [2^1024], is not
    modelled.) *)
Definition double_of_Z (z : Z) : Z :=
  if Z.abs z <=? 2 ^ 53 then z
  else
    let ulp := 2 ^ (Z.log2 (Z.abs z) - 52) in
    let q := Z.abs z / ulp in
    let rem := Z.abs z mod ulp in
    let q' := if 2 * rem <? ulp then q
              else if ulp <? 2 * rem then q + 1
              else if Z.even q then q else q + 1 in
    Z.sgn z * (q' * ulp).

(** [a + b] on doubles holding integers *)
Definition add (a b : Z) : Z := double_of_Z (a + b).

(** *** Doubles that are not integers

    A finite double is [m * 2^e] with [|m| < 2^53] and
    [-1074 <= e <= 971]. *)
Definition pow2 (e : Z) : Q := Qpower 2 e.

Definition is_double (q : Q) : Prop :=
  exists m e, Z.abs m < 2 ^ 53 /\ -1074 <= e <= 971
              /\ (q == inject_Z m * pow2 e)%Q.

(** [floor (log2 q)] for [q > 0]: the difference of the bit lengths of
    numerator and denominator, or one less. *)
Definition ilog2 (q : Q) : Z :=
  let d := Z.log2 (Qnum q) - Z.log2 (Zpos (Qden q)) in
  if Qle_bool (pow2 d) q then d else d - 1.

(** The integer nearest to [r >= 0], ties to even. *)
Definition round_even (r : Q) : Z :=
  let f := Qfloor r in
  match Qcompare (r - inject_Z f) (1 # 2) with
  | Lt => f
  | Gt => f + 1
  | Eq => if Z.even f then f else f + 1
  end.

(** The double nearest to [q > 0], ties to even: 53 significant bits, or
    a multiple of [2^-1074] below [2^-1022] (subnormal). *)
Definition round_pos (q : Q) : Q :=
  let e := Z.max (ilog2 q - 52) (-1074) in
  (inject_Z (round_even (q / pow2 e)) * pow2 e)%Q.

(** The double nearest to [q].  (A magnitude of [2^1024] or more, which
    IEEE arithmetic rounds to an infinity, keeps its finite rounding here;
    an index is out of every array either way.) *)
Definition round_double (q : Q) : Q :=
  match Qcompare q 0 with
  | Eq => 0%Q
  | Gt => round_pos q
  | Lt => (- round_pos (- q))%Q
  end.

(** [a * b] on doubles *)
Definition mul (a b : Q) : Q := round_double (a * b).

End JS.

(** ** Random sources

    [type RNG = () => number]: a closure with hidden state.  The state is
    made explicit: a call returns the number and the next state. *)

Class RandomSource (G : Type) := rng_call : G -> Q * G.

(** The data model's contract for a random source: every call returns a
    number (a double) in [0,1). *)
Definition unit_range (G : Type) `{RandomSource G} : Prop :=
  forall g : G,
    JS.is_double (fst (rng_call g))
    /\ (0 <= fst (rng_call g))%Q /\ (fst (rng_call g) < 1)%Q.

(** The state of the closure returned by [createSeededRng]: its captured
    variable [t]. *)
Record SeededRng := { t : Z }.

(** [createSeededRng]: [let t = seed >>> 0]. *)
Definition createSeededRng (seed : Z) : SeededRng := {| t := JS.ToUint32 seed |}.

(** The value of [r] after the two scrambling lines of the closure's body,
    from the updated [t]. *)
Definition scramble (t : Z) : Z :=
  let r := JS.imul (JS.xor t (JS.ushr t 15)) (JS.or 1 t) in
  let r := JS.xor (JS.add r (JS.imul (JS.xor r (JS.ushr r 7)) (JS.or 61 r))) r in
  r.

(** The numerator of the returned fraction: [(r ^ (r >>> 14)) >>> 0]. *)
Definition output_bits (r : Z) : Z := JS.ToUint32 (JS.xor r (JS.ushr r 14)).

(** One call of the closure: [t += 0x6d2b79f5], scramble, and return
    [((r ^ (r >>> 14)) >>> 0) / 4294967296]. *)
Definition seeded_call (g : SeededRng) : Q * SeededRng :=
  let t := JS.add (t g) 0x6d2b79f5 in
  let r := scramble t in
  (Qmake (output_bits r) 4294967296, {| t := t |}).

#[global] Instance SeededRng_source : RandomSource SeededRng := seeded_call.

(** The state of a random source after [n] calls, and the value its
    call number [n] (counting from 0) returns. *)
Fixpoint after_calls {G} `{RandomSource G} (n : nat) (g : G) : G :=
  match n with
  | O => g
  | S n => after_calls n (snd (rng_call g))
  end.

Definition nth_call {G} `{RandomSource G} (n : nat) (g : G) : Q :=
  fst (rng_call (after_calls n g)).

(** ** Boards *)

Definition Board := list (list Z).

Inductive Direction := Left | Right | Up | Down.

(** A JavaScript call either returns or throws; the only exception the
    engine can raise is the [TypeError] of destructuring [undefined]. *)
Inductive completion (A : Type) :=
| Normal (a : A)
| TypeError.
Arguments Normal {A} a.
Arguments TypeError {A}.

(** [board[r][c]] with [r < board.length]; [None] is [undefined]. *)
Definition cell (board : Board) (r c : nat) : option Z :=
  nth_error (nth r board []) c.

(** [a === b] on values that are numbers or [undefined]. *)
Definition strict_eq (a b : option Z) : bool :=
  match a, b with
  | Some x, Some y => x =? y
  | None, None => true
  | _, _ => false
  end.

(** [l[i] = v] for [i < l.length] (the engine never writes elsewhere). *)
Fixpoint list_set {A} (l : list A) (i : nat) (v : A) : list A :=
  match l, i with
  | [], _ => []
  | _ :: l', O => v :: l'
  | x :: l', S i' => x :: list_set l' i' v
  end.

(** [t[i][j] = v] *)
Definition set_cell (t : Board) (i j : nat) (v : Z) : Board :=
  list_set t i (list_set (nth i t []) j v).

Definition createEmptyBoard (size : nat) : Board :=
  repeat (repeat 0 size) size.

Definition cloneBoard (board : Board) : Board :=
  map (fun row => row) board.

(** [rand]: [Math.floor(rng() * n)], the product rounded to a double
    before it is floored. *)
Definition rand {G} `{RandomSource G} (n : nat) (g : G) : Z * G :=
  let (x, g') := rng_call g in
  (Qfloor (JS.mul x (inject_Z (Z.of_nat n))), g').

(** [getEmptyCells]: the inner loop over [c] from column [c] on, and the
    outer loop over [r] from row [r] on. *)
Fixpoint emptyInRow (r c : nat) (row : list Z) : list (nat * nat) :=
  match row with
  | [] => []
  | v :: row' => (if v =? 0 then [(r, c)] else []) ++ emptyInRow r (S c) row'
  end.

Fixpoint emptyFromRow (r : nat) (rows : Board) : list (nat * nat) :=
  match rows with
  | [] => []
  | row :: rows' => emptyInRow r 0 row ++ emptyFromRow (S r) rows'
  end.

Definition getEmptyCells (board : Board) : list (nat * nat) :=
  emptyFromRow 0 board.

(** The literal [0.9]: the double nearest to nine tenths. *)
Definition double_0_9 : Q := Qmake 8106479329266893 9007199254740992.

Definition Qlt_bool (x y : Q) : bool := negb (Qle_bool y x).

(** [empty[i]] for a number [i]: [undefined] outside the array. *)
Definition index {A} (l : list A) (i : Z) : option A :=
  if i <? 0 then None else nth_error l (Z.to_nat i).

Definition spawnRandomTile {G} `{RandomSource G} (board : Board) (g : G)
  : completion (Board * G) :=
  let empty := getEmptyCells board in
  if (length empty =? 0)%nat then Normal (board, g)
  else
    let (i, g1) := rand (length empty) g in
    match index empty i with
    | None => TypeError
    | Some (r, c) =>
        let (x, g2) := rng_call g1 in
        let value := if Qlt_bool x double_0_9 then 2 else 4 in
        let next := cloneBoard board in
        Normal (set_cell next r c value, g2)
    end.

Definition initializeBoard {G} `{RandomSource G} (size : nat) (g : G)
  : completion (Board * G) :=
  let b := createEmptyBoard size in
  match spawnRandomTile b g with
  | TypeError => TypeError
  | Normal (b, g) => spawnRandomTile b g
  end.

(** [a.every((v, i) => v === b[i])], from index [i] on. *)
Fixpoint every_eq (i : nat) (a b : list Z) : bool :=
  match a with
  | [] => true
  | v :: a' => strict_eq (Some v) (nth_error b i) && every_eq (S i) a' b
  end.

Definition arraysEqual (a b : list Z) : bool :=
  (length a =? length b)%nat && every_eq 0 a b.

(** The loop of [slideAndMergeLine]: [rest] is [filtered] from index [i]
    on, [merged] and [gain] are the loop's variables.  [next] is
    [undefined] exactly when [current] is the last element. *)
Fixpoint mergeLoop (rest : list Z) (merged : list Z) (gain : Z) : list Z * Z :=
  match rest with
  | [] => (merged, gain)
  | current :: rest' =>
      match rest' with
      | [] => (merged ++ [current], gain)
      | next :: rest'' =>
          if current =? next then
            let val := current + next in
            mergeLoop rest'' (merged ++ [val]) (gain + val)
          else mergeLoop rest' (merged ++ [current]) gain
      end
  end.

Module Line.
Record t := { result : list Z; gain : Z; moved : bool }.
End Line.

Definition slideAndMergeLine (line : list Z) : Line.t :=
  let filtered := filter (fun v => negb (v =? 0)) line in
  let (merged, gain) := mergeLoop filtered [] 0 in
  let result := merged ++ repeat 0 (length line - length merged) in
  let moved := negb (arraysEqual result line) in
  {| Line.result := result; Line.gain := gain; Line.moved := moved |}.

(** [transpose]: the two nested loops writing [t[c][r] = board[r][c]] into
    a [size] x [size] grid of zeros.  Every read is in range on a square
    board; where a row is shorter than [size] the source stores
    [undefined], which is outside [Board] and read here as [0]. *)
Definition read (board : Board) (r c : nat) : Z :=
  match cell board r c with
  | Some v => v
  | None => 0
  end.

Definition transpose (board : Board) : Board :=
  let size := length board in
  let t := repeat (repeat 0 size) size in
  fold_left
    (fun t r =>
       fold_left (fun t c => set_cell t c r (read board r c)) (seq 0 size) t)
    (seq 0 size) t.

Definition reverseRows (board : Board) : Board :=
  map (fun row => rev row) board.

Record MoveResult := { board : Board; gained : Z; moved : bool }.

(** [working.map((row) => ...)] with its two captured variables. *)
Definition processRows (working : Board) (totalGain : Z) (anyMoved : bool)
  : Board * Z * bool :=
  fold_left
    (fun '(processed, totalGain, anyMoved) row =>
       let res := slideAndMergeLine row in
       (processed ++ [Line.result res],
        totalGain + Line.gain res,
        if Line.moved res then true else anyMoved))
    working ([], totalGain, anyMoved).

Definition move (board : Board) (direction : Direction) : MoveResult :=
  let working := cloneBoard board in
  match direction with
  | Left | Right =>
      let is_right := match direction with Right => true | _ => false end in
      let working := if is_right then reverseRows working else working in
      let '(processed, totalGain, anyMoved) := processRows working 0 false in
      let working := if is_right then reverseRows processed else processed in
      {| board := working; gained := totalGain; moved := anyMoved |}
  | Up | Down =>
      let is_down := match direction with Down => true | _ => false end in
      let working := transpose working in
      let working := if is_down then reverseRows working else working in
      let '(processed, totalGain, anyMoved) := processRows working 0 false in
      let working := if is_down then reverseRows processed else processed in
      let working := transpose working in
      {| board := working; gained := totalGain; moved := anyMoved |}
  end.

Definition has2048 (board : Board) : bool :=
  existsb (fun row => existsb (fun v => 2048 <=? v) row) board.

(** [hasMoves]: the early [return true]s of the loops are the
    disjunctions of [existsb]. *)
Definition hasMoves (board : Board) : bool :=
  if existsb (fun row => existsb (fun v => v =? 0) row) board then true
  else
    let size := length board in
    existsb
      (fun r =>
         existsb
           (fun c =>
              let v := cell board r c in
              ((c + 1 <? size)%nat && strict_eq (cell board r (c + 1)) v)
              || ((r + 1 <? size)%nat && strict_eq (cell board (r + 1) c) v))
           (seq 0 size))
      (seq 0 size).

(** ** Notions the specification speaks of *)

(** A square board: every row is as long as the board is high. *)
Definition is_square (b : Board) : bool :=
  forallb (fun row => (length row =? length b)%nat) b.

Definition square (b : Board) : Prop := is_square b = true.

(** A tile value: [0] (empty) or a power of two that is at least 2. *)
Definition is_tile (v : Z) : bool :=
  (v =? 0) || ((2 <=? v) && (v =? 2 ^ Z.log2 v)).

(** A well-formed board of side [N]. *)
Definition wellFormed (N : nat) (b : Board) : bool :=
  (length b =? N)%nat
  && forallb (fun row => (length row =? N)%nat && forallb is_tile row) b.

(** Some cell is empty. *)
Definition has_empty (b : Board) : bool :=
  existsb (fun row => existsb (fun v => v =? 0) row) b.

(** Every cell holds a tile value. *)
Definition tile_board (b : Board) : Prop :=
  Forall (Forall (fun v => is_tile v = true)) b.

(** The sum of all tile values. *)
Definition sum_line (l : list Z) : Z := fold_right Z.add 0 l.

Definition sum_board (b : Board) : Z := sum_line (map sum_line b).

(** Some cell holds a tile. *)
Definition has_tile (b : Board) : bool :=
  existsb (fun row => existsb (fun v => negb (v =? 0)) row) b.

(** The non-empty cells of a line, in order. *)
Definition tiles (line : list Z) : list Z :=
  filter (fun v => negb (v =? 0)) line.

(** The slide-and-merge loop as a recursion on the compacted line:
    the merged line and the gain. *)
Fixpoint mergePairs (l : list Z) : list Z * Z :=
  match l with
  | [] => ([], 0)
  | current :: rest =>
      match rest with
      | [] => ([current], 0)
      | next :: rest' =>
          if current =? next then
            let (m, g) := mergePairs rest' in
            (current + next :: m, current + next + g)
          else
            let (m, g) := mergePairs rest in (current :: m, g)
      end
  end.

(** The merged cells of a line and its gain. *)
Definition merged_of (line : list Z) : list Z := fst (mergePairs (tiles line)).
Definition gain_of (line : list Z) : Z := snd (mergePairs (tiles line)).

(** The result and the moved flag of a line. *)
Definition slide (line : list Z) : list Z := Line.result (slideAndMergeLine line).
Definition line_moved (line : list Z) : bool := Line.moved (slideAndMergeLine line).

(** Two neighbouring cells of a line are equal. *)
Definition adjacent_equal (l : list Z) : Prop :=
  exists i, (i + 1 < length l)%nat /\ nth (i + 1) l 0 = nth i l 0.

(** The board as the lines a move in direction [d] collapses, each in its
    direction of travel. *)
Definition travel_lines (d : Direction) (b : Board) : Board :=
  match d with
  | Left => b
  | Right => reverseRows b
  | Up => transpose b
  | Down => reverseRows (transpose b)
  end.

(** Line [i] of travel of a square board, by cells: row [i] for left
    and right, column [i] for up and down, reversed for right and down. *)
Definition travel_line (d : Direction) (b : Board) (i : nat) : list Z :=
  let size := length b in
  match d with
  | Left => map (fun c => read b i c) (seq 0 size)
  | Right => rev (map (fun c => read b i c) (seq 0 size))
  | Up => map (fun r => read b r i) (seq 0 size)
  | Down => rev (map (fun r => read b r i) (seq 0 size))
  end.

(** The inverse of [travel_lines]: a board from its lines of travel. *)
Definition from_travel_lines (d : Direction) (lines : Board) : Board :=
  match d with
  | Left => lines
  | Right => reverseRows lines
  | Up => transpose lines
  | Down => transpose (reverseRows lines)
  end.

(** One output tile's provenance: a single tile, or two equal tiles. *)
Definition merge_block (blk : list Z) : Prop :=
  exists v, v <> 0 /\ (blk = [v] \/ blk = [v; v]).

(** A line [out] that comes from [line] with every tile merged at most
    once: the tiles of [line] split into consecutive blocks of one tile or
    two equal tiles, each block is one cell of [out], zeros follow. *)
Definition merged_once (line out : list Z) : Prop :=
  exists blocks : list (list Z),
    concat blocks = tiles line
    /\ Forall merge_block blocks
    /\ out = map sum_line blocks ++ repeat 0 (length line - length blocks).

(** A grid of [size] rows of [size] cells. *)
Definition is_grid (size : nat) (t : Board) : Prop :=
  length t = size /\ Forall (fun row => length row = size) t.

(** The square grid with entries [f i j]. *)
Definition grid (size : nat) (f : nat -> nat -> Z) : Board :=
  map (fun i => map (fun j => f i j) (seq 0 size)) (seq 0 size).

(** *** The generator as the specification words it

    Unsigned 32-bit arithmetic with wrap-around.  [spec_step3] is the
    third step as the specification writes it (with [xor]), and
    [step3_add] the step with the addition. *)
Module Spec.

Definition wrap (x : Z) : Z := x mod 2 ^ 32.

Definition step1 (t : Z) : Z := wrap (t + 0x6D2B79F5).

Definition step2 (t : Z) : Z :=
  wrap (Z.lxor t (Z.shiftr t 15) * Z.lor t 1).

Definition step3 (r : Z) : Z :=
  wrap (Z.lxor
          (wrap (Z.lxor r (wrap (Z.lxor r (Z.shiftr r 7) * Z.lor r 61))))
          r).

Definition step3_add (r : Z) : Z :=
  wrap (Z.lxor (wrap (r + wrap (Z.lxor r (Z.shiftr r 7) * Z.lor r 61))) r).

Definition step4 (r : Z) : Q :=
  Qmake (wrap (Z.lxor r (Z.shiftr r 14))) 4294967296.

(** The state before call number [n]. *)
Fixpoint state (seed : Z) (n : nat) : Z :=
  match n with
  | O => wrap seed
  | S n => step1 (state seed n)
  end.

(** The output of call number [n], with the third step [s3]. *)
Definition output (s3 : Z -> Z) (seed : Z) (n : nat) : Q :=
  step4 (s3 (step2 (step1 (state seed n)))).

End Spec.

(** ** Further notions, for the properties of the code beyond the
    specification's *)

(** Row-major order on cell coordinates. *)
Definition row_major_lt (p q : nat * nat) : Prop :=
  (fst p < fst q)%nat \/ (fst p = fst q /\ (snd p < snd q)%nat).

(** The number of empty cells and of tiles. *)
Definition count_empty (b : Board) : nat := length (getEmptyCells b).

Definition count_tiles (b : Board) : nat :=
  fold_right (fun row n => (length (tiles row) + n)%nat) 0%nat b.

(** Every cell is at least 0. *)
Definition is_nonneg (b : Board) : bool :=
  forallb (fun row => forallb (fun v => 0 <=? v) row) b.

(** A random source that returns the same number on every call (a test
    double, e.g. for a source that leaves [0,1)). *)
Record ConstRng := { const_value : Q }.

#[global] Instance ConstRng_source : RandomSource ConstRng :=
  fun g => (const_value g, g).

(** A compacted line: its tiles first, without gaps, then its empty
    cells. *)
Definition compacted (line : list Z) : Prop :=
  exists ts k, line = ts ++ repeat 0 k /\ Forall (fun v => v <> 0) ts.

(** Some cell satisfies [p]. *)
Definition some_cell (p : Z -> bool) (b : Board) : bool :=
  existsb (fun row => existsb p row) b.

(** ** The play session ([src/components/2048/game-2048.tsx])

    The component keeps the game in React state variables and changes
    them in its handlers.  A handler is modelled as a function from the
    state of the render it was created in to the state after its updates
    are applied.  Of the state variables, only those that [applyMove] and
    [undo] read or write are kept; [rngRef] holds the random source, whose
    state the spawn advances. *)

Inductive Status := Playing | Won | Over.

(** [status !== "playing"] *)
Definition not_playing (st : Status) : bool :=
  match st with Playing => false | _ => true end.

(** An entry of the undo stack: [{ board, score }]. *)
Module Undo.
Record entry := { board : Board; score : Z }.
End Undo.

Module UI.
Record state (G : Type) := {
  board : Board;
  score : Z;
  status : Status;
  moves : Z;
  isRunning : bool;
  undoStack : list Undo.entry;
  rngRef : G
}.
Arguments board {G} s.
Arguments score {G} s.
Arguments status {G} s.
Arguments moves {G} s.
Arguments isRunning {G} s.
Arguments undoStack {G} s.
Arguments rngRef {G} s.
End UI.

(** [applyMove]: nothing happens unless the game is being played, is not
    paused and the move changes the board; otherwise the old board and
    score are pushed on the undo stack (which keeps 10 entries), a tile is
    spawned on the moved board, and score, move counter and status are
    updated. *)
Definition applyMove {G} `{RandomSource G} (dir : Direction) (s : UI.state G)
  : completion (UI.state G) :=
  if not_playing (UI.status s) || negb (UI.isRunning s) then Normal s
  else
    let res := move (UI.board s) dir in
    if negb (moved res) then Normal s
    else
      let undoStack :=
        {| Undo.board := map (fun r => r) (UI.board s);
           Undo.score := UI.score s |}
        :: firstn 9 (UI.undoStack s) in
      match spawnRandomTile (board res) (UI.rngRef s) with
      | TypeError => TypeError
      | Normal (next, rng) =>
          let nextScore := UI.score s + gained res in
          let nextStatus :=
            if has2048 next then Won
            else if hasMoves next then Playing else Over in
          Normal {| UI.board := next;
                    UI.score := nextScore;
                    UI.status := nextStatus;
                    UI.moves := UI.moves s + 1;
                    UI.isRunning := UI.isRunning s;
                    UI.undoStack := undoStack;
                    UI.rngRef := rng |}
      end.

(** [undo]: with an empty stack nothing happens; otherwise the top entry
    becomes the board and the score, and the status is "playing". *)
Definition undo {G} (s : UI.state G) : UI.state G :=
  match UI.undoStack s with
  | [] => s
  | e :: rest =>
      {| UI.board := Undo.board e;
         UI.score := Undo.score e;
         UI.status := Playing;
         UI.moves := UI.moves s;
         UI.isRunning := UI.isRunning s;
         UI.undoStack := rest;
         UI.rngRef := UI.rngRef s |}
  end.

(** A move that [applyMove] carries out. *)
Definition acts {G} (dir : Direction) (s : UI.state G) : bool :=
  negb (not_playing (UI.status s)) && UI.isRunning s
  && moved (move (UI.board s) dir).

(** A session whose board and undo entries are well-formed boards of side
    [N] and whose undo stack holds at most 10 entries. *)
Definition session_ok {G} (N : nat) (s : UI.state G) : bool :=
  wellFormed N (UI.board s)
  && forallb (fun e => wellFormed N (Undo.board e)) (UI.undoStack s)
  && (length (UI.undoStack s) <=? 10)%nat.

(** A session at its start, seeded, for examples. *)
Definition session_mixed : UI.state SeededRng :=
  {| UI.board := [[2; 4; 2; 2]; [0; 4; 0; 8]; [2; 0; 0; 8]; [0; 0; 16; 0]];
     UI.score := 0;
     UI.status := Playing;
     UI.moves := 0;
     UI.isRunning := true;
     UI.undoStack := [];
     UI.rngRef := createSeededRng 42 |}.

(** The session [session_mixed] after a move to the left. *)
Definition session_mixed_left : UI.state SeededRng :=
  {| UI.board := [[2; 4; 4; 0]; [4; 8; 0; 0]; [2; 8; 0; 2]; [16; 0; 0; 0]];
     UI.score := 4;
     UI.status := Playing;
     UI.moves := 1;
     UI.isRunning := true;
     UI.undoStack :=
       [{| Undo.board := [[2; 4; 2; 2]; [0; 4; 0; 8]; [2; 0; 0; 8]; [0; 0; 16; 0]];
           Undo.score := 0 |}];
     UI.rngRef := {| t := 3663131668 |} |}.

(** ** Boards used as examples *)

Definition board_2022 : Board :=
  [[2; 0; 2; 2]; [0; 0; 0; 0]; [0; 0; 0; 0]; [0; 0; 0; 0]].

Definition board_pair : Board := [[2; 2]; [0; 0]].

Definition board_blocked_left : Board := [[2; 4]; [4; 0]].

Definition board_mixed : Board :=
  [[2; 4; 2; 2]; [0; 4; 0; 8]; [2; 0; 0; 8]; [0; 0; 16; 0]].

Definition board_zeros : Board := [[0; 0]; [0; 0]].

Definition board_stuck : Board := [[2; 4]; [4; 2]].

(** *** More example boards *)

Definition board_merge_full : Board := [[2; 2]; [4; 8]].

Definition board_won : Board := [[2048; 2048; 0]; [2; 0; 0]; [4; 2; 0]].

(** * Properties *)

(** ** Lists *)

Lemma list_ind2 {A} (P : list A -> Prop) :
  P [] -> (forall a, P [a]) ->
  (forall a b l, P l -> P (b :: l) -> P (a :: b :: l)) ->
  forall l, P l.
Proof.
  intros Hnil Hone Hstep l.
  assert (H : P l /\ forall a, P (a :: l)).
  { induction l as [|b l [IH1 IH2]]; split; auto. }
  apply H.
Qed.

Lemma sum_line_app (l1 l2 : list Z) :
  sum_line (l1 ++ l2) = sum_line l1 + sum_line l2.
Proof. induction l1 as [|a l1 IH]; simpl; [reflexivity | rewrite IH; lia]. Qed.

Lemma sum_line_repeat0 (n : nat) : sum_line (repeat 0 n) = 0.
Proof. induction n as [|n IH]; simpl; [reflexivity | exact IH]. Qed.

Lemma sum_line_rev (l : list Z) : sum_line (rev l) = sum_line l.
Proof.
  induction l as [|a l IH]; simpl; [reflexivity|].
  rewrite sum_line_app, IH. simpl. lia.
Qed.

Lemma sum_line_tiles (l : list Z) : sum_line (tiles l) = sum_line l.
Proof.
  induction l as [|a l IH]; simpl; [reflexivity|].
  destruct (Z.eqb_spec a 0) as [->|Hne]; simpl; lia.
Qed.

Lemma tiles_length (l : list Z) : (length (tiles l) <= length l)%nat.
Proof. apply filter_length_le. Qed.

Lemma tiles_nonzero (l : list Z) : Forall (fun v => v <> 0) (tiles l).
Proof.
  apply Forall_forall. intros v Hv. apply filter_In in Hv.
  destruct Hv as [_ Hv]. destruct (Z.eqb_spec v 0); [discriminate | assumption].
Qed.

Lemma tiles_id (l : list Z) : Forall (fun v => v <> 0) l -> tiles l = l.
Proof.
  induction 1 as [|a l Ha _ IH]; simpl; [reflexivity|].
  destruct (Z.eqb_spec a 0); [contradiction | simpl; now rewrite IH].
Qed.

Lemma tiles_app (l1 l2 : list Z) : tiles (l1 ++ l2) = tiles l1 ++ tiles l2.
Proof. apply filter_app. Qed.

Lemma tiles_repeat0 (n : nat) : tiles (repeat 0 n) = [].
Proof. induction n as [|n IH]; simpl; [reflexivity | exact IH]. Qed.

(** ** The line algorithm *)

Lemma mergeLoop_mergePairs (rest merged : list Z) (gain : Z) :
  mergeLoop rest merged gain
  = (merged ++ fst (mergePairs rest), gain + snd (mergePairs rest)).
Proof.
  revert merged gain.
  induction rest as [| a | a b l IH1 IH2] using list_ind2; intros merged gain.
  - simpl. now rewrite app_nil_r, Z.add_0_r.
  - simpl. now rewrite Z.add_0_r.
  - change (mergeLoop (a :: b :: l) merged gain)
      with (if a =? b then mergeLoop l (merged ++ [a + b]) (gain + (a + b))
            else mergeLoop (b :: l) (merged ++ [a]) gain).
    change (mergePairs (a :: b :: l))
      with (if a =? b
            then let (m, g) := mergePairs l in (a + b :: m, a + b + g)
            else let (m, g) := mergePairs (b :: l) in (a :: m, g)).
    destruct (a =? b).
    + rewrite IH1. destruct (mergePairs l) as [m g]. simpl.
      rewrite <- app_assoc. simpl. f_equal. lia.
    + rewrite IH2. destruct (mergePairs (b :: l)) as [m g]. simpl.
      now rewrite <- app_assoc.
Qed.

Lemma mergePairs_cons2 (a b : Z) (l : list Z) :
  mergePairs (a :: b :: l)
  = if a =? b
    then (a + b :: fst (mergePairs l), a + b + snd (mergePairs l))
    else (a :: fst (mergePairs (b :: l)), snd (mergePairs (b :: l))).
Proof.
  change (mergePairs (a :: b :: l))
    with (if a =? b
          then let (m, g) := mergePairs l in (a + b :: m, a + b + g)
          else let (m, g) := mergePairs (b :: l) in (a :: m, g)).
  destruct (a =? b); [destruct (mergePairs l) | destruct (mergePairs (b :: l))];
    reflexivity.
Qed.

Lemma mergePairs_length (l : list Z) :
  (length (fst (mergePairs l)) <= length l)%nat.
Proof.
  induction l as [| a | a b l IH1 IH2] using list_ind2;
    [simpl; lia | simpl; lia |].
  rewrite mergePairs_cons2. destruct (a =? b); simpl in *; lia.
Qed.

Lemma mergePairs_sum (l : list Z) : sum_line (fst (mergePairs l)) = sum_line l.
Proof.
  induction l as [| a | a b l IH1 IH2] using list_ind2; try reflexivity.
  rewrite mergePairs_cons2. destruct (a =? b); simpl in *; lia.
Qed.

Lemma mergePairs_nonzero (l : list Z) :
  Forall (fun v => v <> 0) l -> Forall (fun v => v <> 0) (fst (mergePairs l)).
Proof.
  induction l as [| a | a b l IH1 IH2] using list_ind2; intros H;
    [simpl; auto | simpl; auto |].
  rewrite mergePairs_cons2. inversion H as [|? ? Ha H']; subst.
  inversion H' as [|? ? Hb H'']; subst.
  destruct (Z.eqb_spec a b) as [->|Hne]; simpl; constructor; auto; lia.
Qed.

(** A merge shortens the line: if the length is kept, nothing merged. *)
Lemma mergePairs_fixed (l : list Z) :
  length (fst (mergePairs l)) = length l ->
  fst (mergePairs l) = l /\ snd (mergePairs l) = 0.
Proof.
  induction l as [| a | a b l IH1 IH2] using list_ind2; intros H; auto.
  rewrite mergePairs_cons2 in *.
  destruct (a =? b); simpl in *.
  - pose proof (mergePairs_length l). lia.
  - destruct IH2 as [E1 E2]; [simpl; lia|]. simpl in E1. now rewrite E1, E2.
Qed.

Lemma slideAndMergeLine_eq (line : list Z) :
  slideAndMergeLine line
  = let result :=
      merged_of line ++ repeat 0 (length line - length (merged_of line)) in
    {| Line.result := result;
       Line.gain := gain_of line;
       Line.moved := negb (arraysEqual result line) |}.
Proof.
  unfold slideAndMergeLine, merged_of, gain_of. fold (tiles line).
  rewrite mergeLoop_mergePairs. reflexivity.
Qed.

Lemma every_eq_shift (i : nat) (a : list Z) (w : Z) (b : list Z) :
  every_eq (S i) a (w :: b) = every_eq i a b.
Proof.
  revert i. induction a as [|v a IH]; intros i; simpl; [reflexivity|].
  now rewrite IH.
Qed.

Lemma arraysEqual_spec (a b : list Z) : arraysEqual a b = true <-> a = b.
Proof.
  unfold arraysEqual. revert b.
  induction a as [|v a IH]; intros [|w b]; simpl.
  - split; reflexivity.
  - split; discriminate.
  - split; discriminate.
  - rewrite every_eq_shift. specialize (IH b).
    rewrite andb_true_iff in *. rewrite andb_true_iff.
    destruct (Z.eqb_spec v w) as [->|Hne].
    + split.
      * intros [Hl [_ He]]. f_equal. apply IH. auto.
      * intros E. injection E as ->. destruct IH as [_ IH].
        destruct (IH eq_refl). auto.
    + split; [intros [_ [? _]]; discriminate | congruence].
Qed.

Lemma slide_eq (line : list Z) :
  slide line
  = merged_of line ++ repeat 0 (length line - length (merged_of line)).
Proof. unfold slide. now rewrite slideAndMergeLine_eq. Qed.

Lemma slide_gain (line : list Z) :
  Line.gain (slideAndMergeLine line) = gain_of line.
Proof. now rewrite slideAndMergeLine_eq. Qed.

Lemma merged_of_length (line : list Z) :
  (length (merged_of line) <= length line)%nat.
Proof.
  unfold merged_of. pose proof (mergePairs_length (tiles line)).
  pose proof (tiles_length line). lia.
Qed.

Lemma slide_length (line : list Z) : length (slide line) = length line.
Proof.
  rewrite slide_eq, length_app, repeat_length.
  pose proof (merged_of_length line). lia.
Qed.

Lemma slide_sum (line : list Z) : sum_line (slide line) = sum_line line.
Proof.
  rewrite slide_eq, sum_line_app, sum_line_repeat0. unfold merged_of.
  rewrite mergePairs_sum, sum_line_tiles. lia.
Qed.

Lemma line_moved_false (line : list Z) :
  line_moved line = false <-> slide line = line.
Proof.
  unfold line_moved, slide. rewrite slideAndMergeLine_eq. simpl.
  rewrite negb_false_iff. apply arraysEqual_spec.
Qed.

Lemma line_moved_true (line : list Z) :
  line_moved line = true <-> slide line <> line.
Proof.
  rewrite <- line_moved_false. destruct (line_moved line); split; congruence.
Qed.

Lemma merged_of_nonzero (line : list Z) :
  Forall (fun v => v <> 0) (merged_of line).
Proof. apply mergePairs_nonzero, tiles_nonzero. Qed.

(** A line the algorithm leaves as it is had nothing to merge and is
    already compacted. *)
Lemma slide_fixed (line : list Z) :
  slide line = line ->
  merged_of line = tiles line
  /\ gain_of line = 0
  /\ line = tiles line ++ repeat 0 (length line - length (tiles line)).
Proof.
  intros E. rewrite slide_eq in E.
  assert (Em : merged_of line = tiles line).
  { apply (f_equal tiles) in E.
    rewrite tiles_app, tiles_repeat0, app_nil_r in E.
    now rewrite (tiles_id _ (merged_of_nonzero line)) in E. }
  split; [exact Em|]. split.
  - unfold gain_of. apply mergePairs_fixed. fold (merged_of line). now rewrite Em.
  - rewrite Em in E. now symmetry.
Qed.

(** ** [move] through the lines of travel *)

Lemma cloneBoard_id (b : Board) : cloneBoard b = b.
Proof. apply map_id. Qed.

Lemma processRows_fold (working processed : Board) (totalGain : Z)
    (anyMoved : bool) :
  fold_left
    (fun '(processed, totalGain, anyMoved) row =>
       let res := slideAndMergeLine row in
       (processed ++ [Line.result res],
        totalGain + Line.gain res,
        if Line.moved res then true else anyMoved))
    working (processed, totalGain, anyMoved)
  = (processed ++ map slide working,
     totalGain + sum_line (map gain_of working),
     anyMoved || existsb line_moved working).
Proof.
  revert totalGain anyMoved processed.
  induction working as [|row rows IH]; intros totalGain anyMoved processed.
  - simpl. now rewrite app_nil_r, Z.add_0_r, orb_false_r.
  - cbn [fold_left]. cbv zeta. rewrite IH, <- app_assoc, slide_gain. simpl.
    fold (slide row). fold (line_moved row).
    f_equal; [f_equal; lia|].
    destruct (line_moved row), anyMoved; reflexivity.
Qed.

Lemma processRows_eq (working : Board) (totalGain : Z) (anyMoved : bool) :
  processRows working totalGain anyMoved
  = (map slide working,
     totalGain + sum_line (map gain_of working),
     anyMoved || existsb line_moved working).
Proof. unfold processRows. now rewrite processRows_fold. Qed.

Lemma move_eq (b : Board) (d : Direction) :
  move b d
  = {| board := from_travel_lines d (map slide (travel_lines d b));
       gained := sum_line (map gain_of (travel_lines d b));
       moved := existsb line_moved (travel_lines d b) |}.
Proof.
  unfold move. rewrite cloneBoard_id.
  destruct d; simpl; rewrite processRows_eq; reflexivity.
Qed.

Lemma reverseRows_involutive (b : Board) : reverseRows (reverseRows b) = b.
Proof.
  unfold reverseRows. rewrite map_map.
  rewrite <- (map_id b) at 2. apply map_ext. intros row. apply rev_involutive.
Qed.

(** ** Grids and [transpose] *)

Lemma read_nth (b : Board) (r c : nat) : read b r c = nth c (nth r b []) 0.
Proof.
  unfold read, cell. destruct (nth_error (nth r b []) c) as [v|] eqn:E.
  - symmetry. now apply nth_error_nth.
  - apply nth_error_None in E. symmetry. now apply nth_overflow.
Qed.

Lemma list_set_length {A} (l : list A) (i : nat) (v : A) :
  length (list_set l i v) = length l.
Proof.
  revert i. induction l as [|x l IH]; intros [|i]; simpl; auto.
Qed.

Lemma list_set_nth {A} (l : list A) (i k : nat) (v d : A) :
  (i < length l)%nat ->
  nth k (list_set l i v) d = if (k =? i)%nat then v else nth k l d.
Proof.
  revert i k. induction l as [|x l IH]; intros i k Hi; simpl in Hi; [lia|].
  destruct i as [|i], k as [|k]; simpl; auto.
  apply IH. lia.
Qed.

Lemma is_grid_row (size : nat) (t : Board) (i : nat) :
  is_grid size t -> (i < size)%nat -> length (nth i t []) = size.
Proof.
  intros [Hl Hr] Hi. rewrite Forall_forall in Hr. apply Hr, nth_In. lia.
Qed.

Lemma set_cell_grid (size : nat) (t : Board) (i j : nat) (v : Z) :
  is_grid size t -> is_grid size (set_cell t i j v).
Proof.
  intros Hg. pose proof Hg as [Hl Hr]. unfold set_cell. split.
  - now rewrite list_set_length.
  - apply Forall_forall. intros row Hin.
    apply (In_nth _ _ []) in Hin. destruct Hin as [k [Hk <-]].
    rewrite list_set_length in Hk.
    destruct (Nat.lt_ge_cases i (length t)) as [Hi|Hi].
    + rewrite list_set_nth by exact Hi.
      destruct (k =? i)%nat.
      * rewrite list_set_length. apply (is_grid_row size t i Hg). lia.
      * apply (is_grid_row size t k Hg). lia.
    + assert (E : forall (l : Board) n w, (length l <= n)%nat -> list_set l n w = l).
      { clear. induction l as [|x l IH]; intros [|n] w H; simpl in *; auto; try lia.
        f_equal. apply IH. lia. }
      rewrite E by exact Hi. apply (is_grid_row size t k Hg). lia.
Qed.

Lemma read_set_cell (size : nat) (t : Board) (i j i' j' : nat) (v : Z) :
  is_grid size t -> (i < size)%nat -> (j < size)%nat ->
  read (set_cell t i j v) i' j'
  = if ((i' =? i) && (j' =? j))%nat then v else read t i' j'.
Proof.
  intros Hg Hi Hj. pose proof Hg as [Hl _].
  rewrite !read_nth. unfold set_cell.
  rewrite list_set_nth by lia.
  destruct (Nat.eqb_spec i' i) as [->|Hne]; simpl; [|reflexivity].
  rewrite list_set_nth; [reflexivity|].
  rewrite (is_grid_row size t i Hg Hi). exact Hj.
Qed.

Lemma grid_is_grid (size : nat) (f : nat -> nat -> Z) : is_grid size (grid size f).
Proof.
  unfold grid. split.
  - now rewrite length_map, length_seq.
  - apply Forall_forall. intros row Hin. apply in_map_iff in Hin.
    destruct Hin as [i [<- _]]. now rewrite length_map, length_seq.
Qed.

Lemma nth_grid (size : nat) (f : nat -> nat -> Z) (i : nat) :
  (i < size)%nat -> nth i (grid size f) [] = map (fun j => f i j) (seq 0 size).
Proof.
  intros Hi. unfold grid.
  rewrite (nth_indep _ [] (map (fun j => f 0%nat j) (seq 0 size)))
    by now rewrite length_map, length_seq.
  rewrite (map_nth (fun i => map (fun j => f i j) (seq 0 size))).
  now rewrite seq_nth.
Qed.

Lemma read_grid (size : nat) (f : nat -> nat -> Z) (i j : nat) :
  (i < size)%nat -> (j < size)%nat -> read (grid size f) i j = f i j.
Proof.
  intros Hi Hj. rewrite read_nth, nth_grid by exact Hi.
  rewrite (nth_indep _ 0 (f i 0%nat)) by now rewrite length_map, length_seq.
  rewrite (map_nth (fun j => f i j)). now rewrite seq_nth.
Qed.

(** Two grids with the same cells are the same board. *)
Lemma grid_ext (size : nat) (t1 t2 : Board) :
  is_grid size t1 -> is_grid size t2 ->
  (forall i j, (i < size)%nat -> (j < size)%nat -> read t1 i j = read t2 i j) ->
  t1 = t2.
Proof.
  intros H1 H2 E. pose proof H1 as [L1 _]. pose proof H2 as [L2 _].
  apply (nth_ext _ _ [] []); [lia|]. intros i Hi.
  apply (nth_ext _ _ 0 0).
  - rewrite (is_grid_row size t1 i H1), (is_grid_row size t2 i H2); lia.
  - intros j Hj. rewrite (is_grid_row size t1 i H1) in Hj by lia.
    rewrite <- !read_nth. apply E; lia.
Qed.

Lemma board_as_grid (size : nat) (b : Board) :
  is_grid size b -> b = grid size (read b).
Proof.
  intros Hg. apply (grid_ext size); auto using grid_is_grid.
  intros i j Hi Hj. now rewrite read_grid.
Qed.

Lemma square_is_grid (b : Board) : square b <-> is_grid (length b) b.
Proof.
  unfold square, is_square, is_grid. rewrite forallb_forall, Forall_forall.
  split.
  - intros H. split; [reflexivity|]. intros row Hin. now apply Nat.eqb_eq, H.
  - intros [_ H] row Hin. now apply Nat.eqb_eq, H.
Qed.

(** The inner loop of [transpose] (over [c], for a fixed [r]) writes
    column [r] of [t] and nothing else. *)
Lemma transpose_inner (size r : nat) (f : nat -> Z) (cs : list nat) (t : Board) :
  is_grid size t -> (r < size)%nat -> Forall (fun c => (c < size)%nat) cs ->
  let t' := fold_left (fun t c => set_cell t c r (f c)) cs t in
  is_grid size t'
  /\ (forall i, In i cs -> read t' i r = f i)
  /\ (forall i j, j <> r \/ ~ In i cs -> read t' i j = read t i j).
Proof.
  intros Hg Hr Hcs. revert t Hg.
  induction Hcs as [|c cs Hc Hcs IH]; intros t Hg; simpl.
  - split; [exact Hg|]. split; [intros i [] | reflexivity].
  - assert (Hg1 : is_grid size (set_cell t c r (f c))) by now apply set_cell_grid.
    destruct (IH _ Hg1) as [G [W K]]. split; [exact G|]. split.
    + intros i [<-|Hin].
      * destruct (in_dec Nat.eq_dec c cs) as [Hin|Hnin]; [now apply W|].
        rewrite K by now right.
        rewrite (read_set_cell size) by assumption.
        now rewrite !Nat.eqb_refl.
      * now apply W.
    + intros i j Hij. simpl in Hij. rewrite K by tauto.
      rewrite (read_set_cell size) by assumption.
      destruct (Nat.eqb_spec i c) as [->|]; [|reflexivity].
      destruct (Nat.eqb_spec j r) as [->|]; [|reflexivity].
      exfalso. destruct Hij as [H|H]; [now apply H | apply H; now left].
Qed.

(** The outer loop (over [r]) writes the columns listed in [rs]. *)
Lemma transpose_outer (size : nat) (b : Board) (rs : list nat) (t : Board) :
  is_grid size t -> Forall (fun r => (r < size)%nat) rs ->
  let t' :=
    fold_left
      (fun t r =>
         fold_left (fun t c => set_cell t c r (read b r c)) (seq 0 size) t)
      rs t in
  is_grid size t'
  /\ (forall i j, In j rs -> (i < size)%nat -> read t' i j = read b j i)
  /\ (forall i j, ~ In j rs -> read t' i j = read t i j).
Proof.
  intros Hg Hrs. revert t Hg.
  induction Hrs as [|r rs Hr Hrs IH]; intros t Hg; simpl.
  - split; [exact Hg|]. split; [intros i j [] | reflexivity].
  - assert (Hseq : Forall (fun c => (c < size)%nat) (seq 0 size)).
    { apply Forall_forall. intros c Hc. apply in_seq in Hc. lia. }
    destruct (transpose_inner size r (read b r) (seq 0 size) t Hg Hr Hseq)
      as [G1 [W1 K1]].
    destruct (IH _ G1) as [G [W K]]. split; [exact G|]. split.
    + intros i j [<-|Hin] Hi.
      * destruct (in_dec Nat.eq_dec r rs) as [Hin|Hnin]; [now apply W|].
        rewrite K by exact Hnin. apply W1. apply in_seq. lia.
      * now apply W.
    + intros i j Hj. simpl in Hj. rewrite K by tauto. apply K1. left.
      intros ->. tauto.
Qed.

Lemma empty_is_grid (size : nat) : is_grid size (repeat (repeat 0 size) size).
Proof.
  split; [apply repeat_length|].
  apply Forall_forall. intros row Hin. apply repeat_spec in Hin. subst.
  apply repeat_length.
Qed.

(** [transpose] in closed form: cell [(c, r)] of the result is cell
    [(r, c)] of the board. *)
Lemma transpose_grid (b : Board) :
  transpose b = grid (length b) (fun c r => read b r c).
Proof.
  unfold transpose. set (size := length b).
  assert (Hseq : Forall (fun c => (c < size)%nat) (seq 0 size)).
  { apply Forall_forall. intros c Hc. apply in_seq in Hc. lia. }
  destruct (transpose_outer size b (seq 0 size) _ (empty_is_grid size) Hseq)
    as [G [W _]].
  apply (grid_ext size); auto using grid_is_grid.
  intros i j Hi Hj. rewrite read_grid by assumption.
  apply W; [apply in_seq; lia | exact Hi].
Qed.

Lemma transpose_length (b : Board) : length (transpose b) = length b.
Proof. rewrite transpose_grid. apply grid_is_grid. Qed.

Lemma transpose_is_grid (b : Board) : is_grid (length b) (transpose b).
Proof. rewrite transpose_grid. apply grid_is_grid. Qed.

Lemma read_transpose (b : Board) (i j : nat) :
  (i < length b)%nat -> (j < length b)%nat -> read (transpose b) i j = read b j i.
Proof. intros Hi Hj. rewrite transpose_grid. now rewrite read_grid. Qed.

Lemma transpose_involutive (size : nat) (b : Board) :
  is_grid size b -> transpose (transpose b) = b.
Proof.
  intros Hg. pose proof Hg as [Hl _]. apply (grid_ext size).
  - rewrite <- Hl, <- (transpose_length b). apply transpose_is_grid.
  - exact Hg.
  - intros i j Hi Hj.
    rewrite read_transpose by (rewrite transpose_length; lia).
    apply read_transpose; lia.
Qed.

Lemma map_slide_grid (size : nat) (b : Board) :
  is_grid size b -> is_grid size (map slide b).
Proof.
  intros [Hl Hr]. split; [now rewrite length_map|].
  apply Forall_forall. intros row Hin. apply in_map_iff in Hin.
  destruct Hin as [row' [<- Hin']]. rewrite slide_length.
  rewrite Forall_forall in Hr. now apply Hr.
Qed.

Lemma reverseRows_grid (size : nat) (b : Board) :
  is_grid size b -> is_grid size (reverseRows b).
Proof.
  intros [Hl Hr]. split; [unfold reverseRows; now rewrite length_map|].
  apply Forall_forall. intros row Hin. apply in_map_iff in Hin.
  destruct Hin as [row' [<- Hin']]. rewrite length_rev.
  rewrite Forall_forall in Hr. now apply Hr.
Qed.

(** The lines of travel of the moved board are the collapsed lines of
    travel of the board. *)
Lemma travel_lines_move (b : Board) (d : Direction) :
  square b ->
  travel_lines d (board (move b d)) = map slide (travel_lines d b).
Proof.
  intros Hsq. apply square_is_grid in Hsq. rewrite move_eq. simpl.
  pose proof (transpose_is_grid b) as Ht.
  destruct d; simpl.
  - reflexivity.
  - apply reverseRows_involutive.
  - apply (transpose_involutive (length b)). now apply map_slide_grid.
  - rewrite (transpose_involutive (length b)).
    + apply reverseRows_involutive.
    + now apply reverseRows_grid, map_slide_grid, reverseRows_grid.
Qed.

Lemma from_travel_lines_travel (b : Board) (d : Direction) :
  square b -> from_travel_lines d (travel_lines d b) = b.
Proof.
  intros Hsq. apply square_is_grid in Hsq. destruct d; simpl.
  - reflexivity.
  - apply reverseRows_involutive.
  - now apply (transpose_involutive (length b)).
  - rewrite reverseRows_involutive. now apply (transpose_involutive (length b)).
Qed.

(** ** Sums of tile values *)

Lemma sum_line_map_add {A} (f g : A -> Z) (l : list A) :
  sum_line (map (fun x => f x + g x) l)
  = sum_line (map f l) + sum_line (map g l).
Proof. induction l as [|a l IH]; simpl; [reflexivity | rewrite IH; lia]. Qed.

Lemma sum_line_map_0 {A} (l : list A) : sum_line (map (fun _ => 0) l) = 0.
Proof. induction l as [|a l IH]; simpl; [reflexivity | exact IH]. Qed.

(** A double sum can be taken in either order. *)
Lemma sum_line_exchange {A B} (f : A -> B -> Z) (l1 : list A) (l2 : list B) :
  sum_line (map (fun i => sum_line (map (fun j => f i j) l2)) l1)
  = sum_line (map (fun j => sum_line (map (fun i => f i j) l1)) l2).
Proof.
  induction l1 as [|a l1 IH]; simpl.
  - now rewrite sum_line_map_0.
  - rewrite IH. now rewrite <- sum_line_map_add.
Qed.

Lemma sum_board_grid (size : nat) (f : nat -> nat -> Z) :
  sum_board (grid size f)
  = sum_line (map (fun i => sum_line (map (fun j => f i j) (seq 0 size)))
                (seq 0 size)).
Proof. unfold sum_board, grid. now rewrite map_map. Qed.

Lemma sum_board_transpose (size : nat) (b : Board) :
  is_grid size b -> sum_board (transpose b) = sum_board b.
Proof.
  intros Hg. pose proof Hg as [Hl _].
  rewrite (board_as_grid size b Hg) at 2.
  rewrite transpose_grid, Hl, !sum_board_grid.
  apply (sum_line_exchange (fun c r => read b r c)).
Qed.

Lemma sum_board_reverseRows (b : Board) : sum_board (reverseRows b) = sum_board b.
Proof.
  unfold sum_board, reverseRows. rewrite map_map. f_equal.
  apply map_ext. intros row. apply sum_line_rev.
Qed.

Lemma sum_board_slide (b : Board) : sum_board (map slide b) = sum_board b.
Proof.
  unfold sum_board. rewrite map_map. f_equal.
  apply map_ext. intros row. apply slide_sum.
Qed.

Lemma sum_board_travel_lines (b : Board) (d : Direction) :
  square b -> sum_board (travel_lines d b) = sum_board b.
Proof.
  intros Hsq. apply square_is_grid in Hsq. destruct d; simpl.
  - reflexivity.
  - apply sum_board_reverseRows.
  - now apply (sum_board_transpose (length b)).
  - rewrite sum_board_reverseRows. now apply (sum_board_transpose (length b)).
Qed.

Lemma transpose_is_grid_of (size : nat) (x : Board) :
  length x = size -> is_grid size (transpose x).
Proof. intros <-. apply transpose_is_grid. Qed.

(** A move keeps the board's shape. *)
Lemma move_is_grid (b : Board) (d : Direction) :
  square b -> is_grid (length b) (board (move b d)).
Proof.
  intros Hsq. apply square_is_grid in Hsq. rewrite move_eq. simpl.
  pose proof (transpose_is_grid b) as Ht.
  destruct d; simpl.
  - now apply map_slide_grid.
  - now apply reverseRows_grid, map_slide_grid, reverseRows_grid.
  - apply transpose_is_grid_of. rewrite length_map. apply transpose_length.
  - apply transpose_is_grid_of. unfold reverseRows. rewrite !length_map.
    apply transpose_length.
Qed.

Lemma move_square (b : Board) (d : Direction) :
  square b -> square (board (move b d)).
Proof.
  intros Hsq. destruct (move_is_grid b d Hsq) as [Hl Hr].
  apply square_is_grid. rewrite Hl. now split.
Qed.

(** Merging conserves the total: two equal tiles become their sum. *)
Lemma move_conserves_sum (b : Board) (d : Direction) :
  square b -> sum_board (board (move b d)) = sum_board b.
Proof.
  intros Hsq.
  rewrite <- (sum_board_travel_lines b d Hsq).
  rewrite <- (sum_board_slide (travel_lines d b)).
  rewrite <- (travel_lines_move b d Hsq).
  symmetry. apply sum_board_travel_lines. now apply move_square.
Qed.

(** ** Conservation of the tile sum *)

(** C10: for every square board and every direction, the sum of all tile
    values of the moved board equals the sum of all tile values of the
    board: a merge replaces two equal tiles by their sum. *)
Theorem move_sum_conserved (B : Board) (d : Direction) :
  square B -> sum_board (board (move B d)) = sum_board B.
Proof. apply move_conserves_sum. Qed.

Lemma move_sum_conserved_witness :
  sum_board (board (move board_mixed Up)) = sum_board board_mixed.
Proof. apply (move_sum_conserved board_mixed Up). reflexivity. Defined.

(** C3, as stated, fails: on [[2;2];[0;0]] a move to the left merges the
    two tiles into a 4; the sum stays 4 and the gain is 4, so the sum
    after is not the sum before plus the gain. *)
Lemma sum_plus_gained_counterexample :
  square board_pair
  /\ sum_board (board (move board_pair Left))
     <> sum_board board_pair + gained (move board_pair Left).
Proof. split; [reflexivity | discriminate]. Qed.

(** C3, amended: for every square board and every direction, the sum of
    all tile values after the move equals the sum before it (the gain is
    not added); so it equals the sum before plus the gain exactly when the
    gain is 0. *)
Theorem move_sum_and_gained (B : Board) (d : Direction) :
  square B ->
  sum_board (board (move B d)) = sum_board B
  /\ (sum_board (board (move B d)) = sum_board B + gained (move B d)
      <-> gained (move B d) = 0).
Proof.
  intros Hsq. pose proof (move_conserves_sum B d Hsq) as E.
  split; [exact E|]. rewrite E. lia.
Qed.

Lemma move_sum_and_gained_witness :
  sum_board (board (move board_pair Left)) = sum_board board_pair
  /\ (sum_board (board (move board_pair Left))
      = sum_board board_pair + gained (move board_pair Left)
      <-> gained (move board_pair Left) = 0).
Proof. apply (move_sum_and_gained board_pair Left). reflexivity. Defined.

(** ** Blocked moves *)

Lemma blocked_lines (lines : Board) :
  existsb line_moved lines = false ->
  map slide lines = lines /\ sum_line (map gain_of lines) = 0.
Proof.
  induction lines as [|line lines IH]; simpl; intros H; [auto|].
  apply orb_false_iff in H. destruct H as [H1 H2].
  apply line_moved_false in H1. destruct (IH H2) as [E1 E2].
  destruct (slide_fixed line H1) as [_ [G _]].
  rewrite H1, E1, E2, G. auto.
Qed.

(** C2: for every square board and every direction, a move that reports
    [moved = false] returns a board equal to the input cell for cell and
    gains nothing. *)
Theorem blocked_move_is_noop (B : Board) (d : Direction) :
  square B -> moved (move B d) = false ->
  board (move B d) = B /\ gained (move B d) = 0.
Proof.
  intros Hsq. rewrite move_eq. simpl. intros H.
  destruct (blocked_lines _ H) as [E1 E2]. rewrite E1, E2.
  split; [now apply from_travel_lines_travel | reflexivity].
Qed.

Lemma blocked_move_is_noop_witness :
  board (move board_blocked_left Left) = board_blocked_left
  /\ gained (move board_blocked_left Left) = 0.
Proof.
  apply (blocked_move_is_noop board_blocked_left Left); reflexivity.
Defined.

(** ** Directional symmetry *)

(** C6: for every square board, moving up is moving left under
    transposition. *)
Theorem up_is_left_transposed (B : Board) :
  square B ->
  transpose (board (move (transpose B) Left)) = board (move B Up).
Proof. intros _. rewrite !move_eq. reflexivity. Qed.

Lemma up_is_left_transposed_witness :
  transpose (board (move (transpose board_mixed) Left))
  = board (move board_mixed Up).
Proof. apply (up_is_left_transposed board_mixed). reflexivity. Defined.

(** ** Win detection *)

Lemma cell_In (b : Board) (v : Z) :
  (exists row, In row b /\ In v row) <-> exists r c, cell b r c = Some v.
Proof.
  unfold cell. split.
  - intros [row [Hr Hv]].
    apply (In_nth _ _ []) in Hr. destruct Hr as [r [_ <-]].
    apply In_nth_error in Hv. destruct Hv as [c Hc]. eauto.
  - intros [r [c H]].
    assert (Hr : (r < length b)%nat).
    { destruct (Nat.lt_ge_cases r (length b)) as [|Hge]; [assumption|].
      rewrite nth_overflow in H by exact Hge. now destruct c. }
    exists (nth r b []). split; [now apply nth_In | eapply nth_error_In; eauto].
Qed.

(** C7: [has2048] is true exactly when some cell holds a value of at
    least 2048. *)
Theorem has2048_iff (B : Board) :
  has2048 B = true <-> exists r c v, cell B r c = Some v /\ 2048 <= v.
Proof.
  unfold has2048. rewrite existsb_exists. split.
  - intros [row [Hr H]]. apply existsb_exists in H. destruct H as [v [Hv H]].
    destruct (proj1 (cell_In B v)) as [r [c Hc]]; [eauto|].
    exists r, c, v. split; [exact Hc | lia].
  - intros [r [c [v [Hc Hv]]]].
    destruct (proj2 (cell_In B v)) as [row [Hr Hin]]; [eauto|].
    exists row. split; [exact Hr|]. apply existsb_exists.
    exists v. split; [exact Hin | lia].
Qed.

(** The scenarios of the specification: a 2048 or a 4096 wins, a board
    whose largest tile is 1024 does not. *)
Example has2048_scenarios :
  has2048 [[2; 2048]; [0; 4]] = true
  /\ has2048 [[4096; 2]; [0; 4]] = true
  /\ has2048 [[1024; 2]; [512; 4]] = false.
Proof. repeat split. Qed.

(** ** Merge once *)

(** Every cell of the merged line is one tile of the compacted line or
    the sum of two equal neighbours, and each tile is used once. *)
Lemma mergePairs_blocks (l : list Z) :
  Forall (fun v => v <> 0) l ->
  exists blocks : list (list Z),
    concat blocks = l
    /\ Forall merge_block blocks
    /\ fst (mergePairs l) = map sum_line blocks.
Proof.
  induction l as [| a | a b l IH1 IH2] using list_ind2; intros H.
  - exists []. repeat split; constructor.
  - exists [[a]]. inversion H; subst. repeat split.
    + constructor; [|constructor]. exists a. auto.
    + simpl. now rewrite Z.add_0_r.
  - inversion H as [|? ? Ha H']; subst. inversion H' as [|? ? Hb H'']; subst.
    rewrite mergePairs_cons2. destruct (Z.eqb_spec a b) as [->|Hne].
    + destruct (IH1 H'') as [blocks [E1 [E2 E3]]].
      exists ([b; b] :: blocks).
      split; [simpl; now rewrite E1|]. split.
      * constructor; [|exact E2]. exists b. auto.
      * cbn [fst]. rewrite E3. simpl. f_equal. lia.
    + destruct (IH2 H') as [blocks [E1 [E2 E3]]].
      exists ([a] :: blocks).
      split; [simpl; now rewrite E1|]. split.
      * constructor; [|exact E2]. exists a. auto.
      * cbn [fst]. rewrite E3. simpl. f_equal. lia.
Qed.

Lemma slide_merged_once (line : list Z) : merged_once line (slide line).
Proof.
  destruct (mergePairs_blocks (tiles line) (tiles_nonzero line))
    as [blocks [E1 [E2 E3]]].
  exists blocks. split; [exact E1|]. split; [exact E2|].
  rewrite slide_eq. unfold merged_of. rewrite E3. now rewrite length_map.
Qed.

(** C4: in one move every output tile is one input tile or the merge of
    two equal input tiles, so no merged tile merges again: along every
    line of travel the tiles split into consecutive blocks of one tile or
    two equal tiles, and each block gives one cell of the moved line.  In
    particular the row [2,0,2,2] moved left becomes [4,2,0,0] with a gain
    of 4. *)
Theorem merge_once (B : Board) (d : Direction) :
  square B ->
  Forall2 merged_once (travel_lines d B) (travel_lines d (board (move B d)))
  /\ board (move board_2022 Left)
     = [[4; 2; 0; 0]; [0; 0; 0; 0]; [0; 0; 0; 0]; [0; 0; 0; 0]]
  /\ gained (move board_2022 Left) = 4.
Proof.
  intros Hsq. split; [|split; reflexivity].
  rewrite (travel_lines_move B d Hsq).
  induction (travel_lines d B) as [|line lines IH]; simpl; constructor.
  - apply slide_merged_once.
  - exact IH.
Qed.

Lemma merge_once_witness :
  Forall2 merged_once (travel_lines Down board_mixed)
    (travel_lines Down (board (move board_mixed Down)))
  /\ board (move board_2022 Left)
     = [[4; 2; 0; 0]; [0; 0; 0; 0]; [0; 0; 0; 0]; [0; 0; 0; 0]]
  /\ gained (move board_2022 Left) = 4.
Proof. apply (merge_once board_mixed Down). reflexivity. Defined.

(** ** Spawning *)

Lemma emptyInRow_nil (r c : nat) (row : list Z) :
  existsb (fun v => v =? 0) row = false -> emptyInRow r c row = [].
Proof.
  revert c. induction row as [|v row IH]; intros c H; simpl in *; [reflexivity|].
  apply orb_false_iff in H. destruct H as [-> H]. simpl. now apply IH.
Qed.

Lemma getEmptyCells_nil (b : Board) :
  has_empty b = false -> getEmptyCells b = [].
Proof.
  unfold getEmptyCells, has_empty. generalize 0%nat as r.
  induction b as [|row rows IH]; intros r H; simpl in *; [reflexivity|].
  apply orb_false_iff in H. destruct H as [H1 H2].
  now rewrite emptyInRow_nil, IH.
Qed.

(** C8: on a board with no empty cell, [spawnRandomTile] returns the
    board it was given, whatever the random source, as a normal return (no
    exception) and without calling the random source. *)
Theorem spawn_full_board_noop (G : Type) `{RandomSource G} (B : Board) (g : G) :
  has_empty B = false -> spawnRandomTile B g = Normal (B, g).
Proof.
  intros Hfull. unfold spawnRandomTile.
  now rewrite (getEmptyCells_nil B Hfull).
Qed.

Lemma spawn_full_board_noop_witness :
  spawnRandomTile board_stuck (createSeededRng 42)
  = Normal (board_stuck, createSeededRng 42).
Proof.
  apply (spawn_full_board_noop SeededRng board_stuck (createSeededRng 42)).
  reflexivity.
Defined.

(** ** Well-formed boards *)

Lemma is_tile_spec (v : Z) :
  is_tile v = true <-> v = 0 \/ exists k, 1 <= k /\ v = 2 ^ k.
Proof.
  unfold is_tile. rewrite orb_true_iff, andb_true_iff.
  rewrite !Z.eqb_eq, Z.leb_le. split.
  - intros [E|[H2 E]]; [now left|]. right. exists (Z.log2 v). split; [|exact E].
    change 1 with (Z.log2 2). now apply Z.log2_le_mono.
  - intros [E|[k [Hk E]]]; [now left|]. right. subst v.
    rewrite Z.log2_pow2 by lia. split; [|reflexivity].
    change 2 with (2 ^ 1) at 1. apply Z.pow_le_mono_r; lia.
Qed.

Lemma is_tile_double (v : Z) :
  is_tile v = true -> v <> 0 -> is_tile (v + v) = true.
Proof.
  intros H Hne. apply is_tile_spec in H. destruct H as [H|[k [Hk ->]]]; [contradiction|].
  apply is_tile_spec. right. exists (k + 1). split; [lia|].
  rewrite Z.pow_add_r by lia. lia.
Qed.

Lemma mergePairs_tiles (l : list Z) :
  Forall (fun v => v <> 0) l -> Forall (fun v => is_tile v = true) l ->
  Forall (fun v => is_tile v = true) (fst (mergePairs l)).
Proof.
  induction l as [| a | a b l IH1 IH2] using list_ind2; intros Hn Ht;
    [simpl; auto | simpl; auto |].
  rewrite mergePairs_cons2.
  inversion Hn as [|? ? Ha Hn']; subst. inversion Hn' as [|? ? Hb Hn'']; subst.
  inversion Ht as [|? ? Ta Ht']; subst. inversion Ht' as [|? ? Tb Ht'']; subst.
  destruct (Z.eqb_spec a b) as [->|Hne]; simpl; constructor; auto.
  now apply is_tile_double.
Qed.

Lemma slide_tiles (line : list Z) :
  Forall (fun v => is_tile v = true) line ->
  Forall (fun v => is_tile v = true) (slide line).
Proof.
  intros Ht. rewrite slide_eq. apply Forall_app. split.
  - apply mergePairs_tiles; [apply tiles_nonzero|].
    rewrite Forall_forall in *. intros v Hv. apply Ht.
    unfold tiles in Hv. now apply filter_In in Hv.
  - apply Forall_forall. intros v Hv. apply repeat_spec in Hv. now subst.
Qed.

Lemma tile_board_slide (b : Board) : tile_board b -> tile_board (map slide b).
Proof.
  unfold tile_board. intros H. apply Forall_map.
  eapply Forall_impl; [|exact H]. apply slide_tiles.
Qed.

Lemma tile_board_reverseRows (b : Board) :
  tile_board b -> tile_board (reverseRows b).
Proof.
  unfold tile_board, reverseRows. intros H. apply Forall_map.
  eapply Forall_impl; [|exact H]. intros row. apply Forall_rev.
Qed.

Lemma read_tile (b : Board) (r c : nat) :
  tile_board b -> is_tile (read b r c) = true.
Proof.
  intros H. unfold read, cell.
  destruct (nth_error (nth r b []) c) as [v|] eqn:E; [|reflexivity].
  apply nth_error_In in E.
  destruct (Nat.lt_ge_cases r (length b)) as [Hr|Hr].
  - unfold tile_board in H. rewrite Forall_forall in H.
    specialize (H _ (nth_In b [] Hr)). rewrite Forall_forall in H. now apply H.
  - rewrite nth_overflow in E by exact Hr. contradiction.
Qed.

Lemma tile_board_grid (size : nat) (f : nat -> nat -> Z) :
  (forall i j, is_tile (f i j) = true) -> tile_board (grid size f).
Proof.
  intros H. unfold tile_board, grid. apply Forall_map, Forall_forall.
  intros i _. apply Forall_map, Forall_forall. intros j _. apply H.
Qed.

Lemma tile_board_transpose (b : Board) :
  tile_board b -> tile_board (transpose b).
Proof.
  intros H. rewrite transpose_grid. apply tile_board_grid.
  intros i j. now apply read_tile.
Qed.

Lemma wellFormed_spec (N : nat) (b : Board) :
  wellFormed N b = true <-> is_grid N b /\ tile_board b.
Proof.
  unfold wellFormed, is_grid, tile_board.
  rewrite andb_true_iff, Nat.eqb_eq, forallb_forall, !Forall_forall. split.
  - intros [Hl H]. repeat split; [exact Hl | |].
    + intros row Hin. specialize (H row Hin).
      apply andb_true_iff in H. now apply Nat.eqb_eq.
    + intros row Hin. specialize (H row Hin).
      apply andb_true_iff in H. destruct H as [_ H].
      rewrite forallb_forall in H. now apply Forall_forall.
  - intros [[Hl Hr] Ht]. split; [exact Hl|]. intros row Hin.
    apply andb_true_iff. split; [now apply Nat.eqb_eq, Hr|].
    apply forallb_forall. specialize (Ht row Hin).
    now rewrite Forall_forall in Ht.
Qed.

Lemma is_grid_square (N : nat) (b : Board) : is_grid N b -> square b.
Proof. intros Hg. apply square_is_grid. destruct Hg as [Hl Hr]. rewrite Hl. now split. Qed.

Lemma move_wellFormed (N : nat) (b : Board) (d : Direction) :
  wellFormed N b = true -> wellFormed N (board (move b d)) = true.
Proof.
  rewrite !wellFormed_spec. intros [Hg Ht]. split.
  - pose proof Hg as [Hl _]. rewrite <- Hl. apply move_is_grid.
    now apply (is_grid_square N).
  - rewrite move_eq. simpl.
    destruct d; simpl;
      auto 8 using tile_board_slide, tile_board_reverseRows, tile_board_transpose.
Qed.

Lemma list_set_Forall {A} (P : A -> Prop) (l : list A) (i : nat) (v : A) :
  Forall P l -> P v -> Forall P (list_set l i v).
Proof.
  intros Hl Hv. revert i.
  induction Hl as [|x l Hx Hl IH]; intros [|i]; simpl; constructor; auto.
Qed.

Lemma set_cell_tiles (t : Board) (i j : nat) (v : Z) :
  tile_board t -> is_tile v = true -> tile_board (set_cell t i j v).
Proof.
  intros Ht Hv. unfold set_cell. apply list_set_Forall; [exact Ht|].
  apply list_set_Forall; [|exact Hv].
  destruct (Nat.lt_ge_cases i (length t)) as [Hi|Hi].
  - unfold tile_board in Ht. rewrite Forall_forall in Ht. now apply Ht, nth_In.
  - rewrite nth_overflow by exact Hi. constructor.
Qed.

(** ** Rounding to a double *)

Lemma pow2_pos (e : Z) : (0 < JS.pow2 e)%Q.
Proof. apply Qpower_0_lt. reflexivity. Qed.

Lemma pow2_add (a b : Z) : (JS.pow2 (a + b) == JS.pow2 a * JS.pow2 b)%Q.
Proof. apply Qpower_plus. discriminate. Qed.

Lemma pow2_Z (k : Z) : 0 <= k -> (JS.pow2 k == inject_Z (2 ^ k))%Q.
Proof. intros Hk. unfold JS.pow2. now rewrite Zpower_Qpower. Qed.

Lemma Qle_shift_div (p : Q) (a : Z) (b : positive) :
  (p * inject_Z (Zpos b) <= inject_Z a)%Q -> (p <= a # b)%Q.
Proof.
  destruct p as [pn pd]. unfold Qle. simpl.
  rewrite !Z.mul_1_r, Pos.mul_1_r. lia.
Qed.

Lemma ilog2_le (q : Q) : (0 < q)%Q -> (JS.pow2 (JS.ilog2 q) <= q)%Q.
Proof.
  intros Hq. unfold JS.ilog2.
  destruct (Qle_bool _ q) eqn:E; [now apply Qle_bool_iff|].
  destruct q as [a b]. cbn [Qnum Qden].
  assert (Ha : 0 < a) by (unfold Qlt in Hq; simpl in Hq; lia).
  destruct (Z.log2_spec a Ha) as [La _].
  destruct (Z.log2_spec (Zpos b) eq_refl) as [_ Lb].
  set (la := Z.log2 a) in *. set (lb := Z.log2 (Zpos b)) in *.
  assert (Hla : 0 <= la) by apply Z.log2_nonneg.
  assert (Hlb : 0 <= lb) by apply Z.log2_nonneg.
  apply Qle_shift_div.
  pose proof (pow2_pos (la - lb - 1)) as Hp.
  assert (E1 : (JS.pow2 (la - lb - 1) * inject_Z (2 ^ (lb + 1))
                == inject_Z (2 ^ la))%Q).
  { rewrite <- !pow2_Z by lia. rewrite <- pow2_add.
    replace (la - lb - 1 + (lb + 1)) with la by lia. reflexivity. }
  assert (E2 : (inject_Z (Zpos b) <= inject_Z (2 ^ (lb + 1)))%Q)
    by (rewrite <- Zle_Qle; lia).
  assert (E3 : (inject_Z (2 ^ la) <= inject_Z a)%Q)
    by (rewrite <- Zle_Qle; lia).
  apply Qle_trans with (JS.pow2 (la - lb - 1) * inject_Z (2 ^ (lb + 1)))%Q.
  - rewrite !(Qmult_comm (JS.pow2 (la - lb - 1))).
    apply Qmult_le_compat_r; [exact E2 | now apply Qlt_le_weak].
  - now rewrite E1.
Qed.

Lemma Qlt_shift_div (p : Q) (a : Z) (b : positive) :
  (inject_Z a < p * inject_Z (Zpos b))%Q -> (a # b < p)%Q.
Proof.
  destruct p as [pn pd]. unfold Qlt. simpl.
  rewrite !Z.mul_1_r, Pos.mul_1_r. lia.
Qed.

(** [JS.ilog2 q] is the exponent of the binade of [q]. *)
Lemma ilog2_lt (q : Q) : (0 < q)%Q -> (q < JS.pow2 (JS.ilog2 q + 1))%Q.
Proof.
  intros Hq. unfold JS.ilog2.
  destruct (Qle_bool _ q) eqn:E.
  - destruct q as [a b]. cbn [Qnum Qden].
    assert (Ha : 0 < a) by (unfold Qlt in Hq; simpl in Hq; lia).
    destruct (Z.log2_spec a Ha) as [_ La].
    destruct (Z.log2_spec (Zpos b) eq_refl) as [Lb _].
    set (la := Z.log2 a) in *. set (lb := Z.log2 (Zpos b)) in *.
    assert (Hla : 0 <= la) by apply Z.log2_nonneg.
    assert (Hlb : 0 <= lb) by apply Z.log2_nonneg.
    apply Qlt_shift_div.
    pose proof (pow2_pos (la - lb + 1)) as Hp.
    assert (E1 : (JS.pow2 (la - lb + 1) * inject_Z (2 ^ lb)
                  == inject_Z (2 ^ (la + 1)))%Q).
    { rewrite <- !pow2_Z by lia. rewrite <- pow2_add.
      replace (la - lb + 1 + lb) with (la + 1) by lia. reflexivity. }
    assert (E2 : (inject_Z (2 ^ lb) <= inject_Z (Zpos b))%Q)
      by (rewrite <- Zle_Qle; lia).
    assert (E3 : (inject_Z a < inject_Z (2 ^ (la + 1)))%Q)
      by (rewrite <- Zlt_Qlt; lia).
    apply Qlt_le_trans with (JS.pow2 (la - lb + 1) * inject_Z (2 ^ lb))%Q.
    + now rewrite E1.
    + rewrite !(Qmult_comm (JS.pow2 (la - lb + 1))).
      apply Qmult_le_compat_r; [exact E2 | now apply Qlt_le_weak].
  - replace (Z.log2 (Qnum q) - Z.log2 (Zpos (Qden q)) - 1 + 1)
      with (Z.log2 (Qnum q) - Z.log2 (Zpos (Qden q))) by lia.
    apply Qnot_le_lt. intros Hle. apply Qle_bool_iff in Hle. congruence.
Qed.

(** The rounding on some products, as a JavaScript engine computes them:
    [0.1 * 3], [(1/3) * 3], [(1 - 2^-53) * 7], [-0.3 * 7], [0.7 * 0.1], and
    the smallest subnormal halved. *)
Example mul_samples :
  forallb (fun '(a, b, c) => Qeq_bool (JS.mul a b) c)
    [ (3602879701896397 # 36028797018963968, 3 # 1,
       1351079888211149 # 4503599627370496);
      (6004799503160661 # 18014398509481984, 3 # 1, 1 # 1);
      (9007199254740991 # 9007199254740992, 7 # 1,
       7881299347898367 # 1125899906842624);
      (- (5404319552844595 # 18014398509481984), 7 # 1,
       - (4728779608739021 # 2251799813685248));
      (3152519739159347 # 4503599627370496,
       3602879701896397 # 36028797018963968,
       5044031582654955 # 72057594037927936);
      (JS.pow2 (-1074), 1 # 2, 0) ]%Q
  = true.
Proof. vm_compute. reflexivity. Qed.

Lemma round_even_bounds (r : Q) :
  (0 <= r)%Q ->
  Qfloor r <= JS.round_even r
  /\ (inject_Z (JS.round_even r) <= r + (1 # 2))%Q
  /\ (r - (1 # 2) <= inject_Z (JS.round_even r))%Q.
Proof.
  intros Hr. unfold JS.round_even.
  pose proof (Qfloor_le r) as Hf. pose proof (Qlt_floor r) as Hc.
  rewrite inject_Z_plus in Hc. change (inject_Z 1) with 1%Q in Hc.
  destruct (Qcompare _ _) eqn:E.
  - apply Qeq_alt in E.
    destruct (Z.even (Qfloor r)); (split; [lia|]);
      rewrite ?inject_Z_plus; change (inject_Z 1) with 1%Q; split; lra.
  - apply Qlt_alt in E. split; [lia|]. split; lra.
  - apply Qgt_alt in E. split; [lia|].
    rewrite inject_Z_plus. change (inject_Z 1) with 1%Q. split; lra.
Qed.

Lemma round_pos_bounds (q : Q) :
  (0 < q)%Q ->
  let u := JS.pow2 (Z.max (JS.ilog2 q - 52) (-1074)) in
  (inject_Z (Qfloor (q / u)) * u <= JS.round_pos q)%Q
  /\ (JS.round_pos q <= q + u * (1 # 2))%Q
  /\ (q - u * (1 # 2) <= JS.round_pos q)%Q.
Proof.
  intros Hq u. unfold JS.round_pos. fold u.
  assert (Hu : (0 < u)%Q) by apply pow2_pos.
  assert (Hr : (0 <= q / u)%Q).
  { apply Qle_shift_div_l; [exact Hu|]. lra. }
  destruct (round_even_bounds (q / u) Hr) as [B1 [B2 B3]].
  assert (Eq : (q / u * u == q)%Q) by (field; lra).
  split; [|split].
  - apply Qmult_le_compat_r; [now rewrite <- Zle_Qle | lra].
  - apply Qle_trans with ((q / u + (1 # 2)) * u)%Q.
    + apply Qmult_le_compat_r; [exact B2 | lra].
    + rewrite Qmult_plus_distr_l, Eq. lra.
  - apply Qle_trans with ((q / u - (1 # 2)) * u)%Q.
    + setoid_replace ((q / u - (1 # 2)) * u)%Q with (q / u * u - u * (1 # 2))%Q by ring.
      rewrite Eq. lra.
    + apply Qmult_le_compat_r; [exact B3 | lra].
Qed.

Lemma ulp_bound (q : Q) :
  (0 < q)%Q ->
  let u := JS.pow2 (Z.max (JS.ilog2 q - 52) (-1074)) in
  (u <= q * (1 # 4503599627370496))%Q \/ (u == JS.pow2 (-1074))%Q.
Proof.
  intros Hq u. unfold u.
  destruct (Z.max_spec (JS.ilog2 q - 52) (-1074)) as [[_ ->]|[_ ->]];
    [right; reflexivity | left].
  replace (JS.ilog2 q - 52) with (JS.ilog2 q + -52) by lia.
  rewrite pow2_add.
  setoid_replace (JS.pow2 (-52)) with (1 # 4503599627370496)%Q by reflexivity.
  apply Qmult_le_compat_r; [now apply ilog2_le | discriminate].
Qed.

Lemma round_double_pos (q : Q) : (0 < q)%Q -> JS.round_double q = JS.round_pos q.
Proof.
  intros Hq. unfold JS.round_double. destruct (Qcompare q 0) eqn:E.
  - apply Qeq_alt in E. lra.
  - apply Qlt_alt in E. lra.
  - reflexivity.
Qed.

Lemma round_double_zero (q : Q) : (q == 0)%Q -> JS.round_double q = 0%Q.
Proof.
  intros Hq. unfold JS.round_double. destruct (Qcompare q 0) eqn:E.
  - reflexivity.
  - apply Qlt_alt in E. lra.
  - apply Qgt_alt in E. lra.
Qed.

Lemma round_double_neg (q : Q) :
  (q < 0)%Q -> JS.round_double q = (- JS.round_pos (- q))%Q.
Proof.
  intros Hq. unfold JS.round_double. destruct (Qcompare q 0) eqn:E.
  - apply Qeq_alt in E. lra.
  - reflexivity.
  - apply Qgt_alt in E. lra.
Qed.

Lemma round_even_Z (k : Z) : JS.round_even (inject_Z k) = k.
Proof.
  unfold JS.round_even. rewrite Qfloor_Z.
  destruct (Qcompare _ _) eqn:E; [|reflexivity|].
  - apply Qeq_alt in E. lra.
  - apply Qgt_alt in E. lra.
Qed.

Lemma round_pos_double (q : Q) :
  JS.is_double q -> (0 < q)%Q -> (JS.round_pos q == q)%Q.
Proof.
  intros [m [e' [Hm [He Eq]]]] Hq.
  pose proof (pow2_pos e') as Hu'.
  assert (Hmpos : 0 < m).
  { destruct (Z_lt_le_dec 0 m) as [|Hle]; [assumption | exfalso].
    assert (H0 : (inject_Z m * JS.pow2 e' <= 0)%Q).
    { setoid_replace 0%Q with (0 * JS.pow2 e')%Q by ring.
      apply Qmult_le_compat_r; [|lra].
      change 0%Q with (inject_Z 0). now rewrite <- Zle_Qle. }
    rewrite Eq in Hq. lra. }
  unfold JS.round_pos. set (e := Z.max (JS.ilog2 q - 52) (-1074)).
  assert (Hee : e <= e').
  { assert (Hlt : (JS.pow2 (JS.ilog2 q) < JS.pow2 (53 + e'))%Q).
    { eapply Qle_lt_trans; [apply (ilog2_le q Hq)|].
      rewrite Eq, pow2_add, (pow2_Z 53) by lia.
      apply Qmult_lt_compat_r; [exact Hu'|]. rewrite <- Zlt_Qlt. lia. }
    apply Qpower_lt_compat_l_inv in Hlt; [|reflexivity]. unfold e. lia. }
  assert (Er : (q / JS.pow2 e == inject_Z (m * 2 ^ (e' - e)))%Q).
  { pose proof (pow2_pos e) as Hu.
    rewrite Eq, inject_Z_mult, <- pow2_Z by lia.
    replace e' with ((e' - e) + e) at 1 by lia. rewrite pow2_add.
    field. lra. }
  assert (Ere : JS.round_even (q / JS.pow2 e) = m * 2 ^ (e' - e)).
  { rewrite <- (round_even_Z (m * 2 ^ (e' - e))). unfold JS.round_even.
    rewrite (Qfloor_comp _ _ Er). 
    assert (Ec : Qcompare (q / JS.pow2 e - inject_Z (Qfloor (inject_Z (m * 2 ^ (e' - e))))) (1 # 2)
               = Qcompare (inject_Z (m * 2 ^ (e' - e)) - inject_Z (Qfloor (inject_Z (m * 2 ^ (e' - e))))) (1 # 2)).
    { now rewrite Er. }
    now rewrite Ec. }
  rewrite Ere, <- Er. field. pose proof (pow2_pos e). lra.
Qed.

(** Rounding leaves a double as it is. *)
Lemma round_double_fixes (q : Q) : JS.is_double q -> (JS.round_double q == q)%Q.
Proof.
  intros Hd. destruct (Q_dec q 0) as [[Hneg|Hpos]|Hz].
  - rewrite (round_double_neg q Hneg).
    assert (Hd' : JS.is_double (- q)).
    { destruct Hd as [m [e [Hm [He Eq]]]]. exists (- m), e.
      split; [lia|]. split; [exact He|]. rewrite Eq, inject_Z_opp. ring. }
    rewrite (round_pos_double (- q) Hd') by lra. ring.
  - now rewrite (round_double_pos q Hpos), round_pos_double.
  - rewrite (round_double_zero q Hz). now symmetry.
Qed.

(** The largest double below 1 is [1 - 2^-53]. *)
Lemma double_below_one (x : Q) :
  JS.is_double x -> (x < 1)%Q -> (x <= 1 - (1 # 9007199254740992))%Q.
Proof.
  intros [m [e [Hm [He Ex]]]] Hx.
  pose proof (pow2_pos e) as Hu.
  destruct (Z_lt_le_dec e (-53)) as [Hsmall|Hbig].
  - (* below 1/2 *)
    assert (Hle : (JS.pow2 e <= JS.pow2 (-54))%Q).
    { apply Qpower_le_compat_l; [lia | discriminate]. }
    setoid_replace (JS.pow2 (-54)) with (1 # 18014398509481984)%Q in Hle
      by reflexivity.
    assert (Hmu : (inject_Z m * JS.pow2 e <= inject_Z (2 ^ 53) * JS.pow2 e)%Q).
    { apply Qmult_le_compat_r; [rewrite <- Zle_Qle; lia | lra]. }
    change (inject_Z (2 ^ 53)) with (9007199254740992 # 1)%Q in Hmu.
    rewrite Ex. lra.
  - destruct (Z_lt_le_dec e 0) as [Hneg|Hpos].
    + (* [x * 2^53] is an integer below [2^53] *)
      assert (E : (x * inject_Z (2 ^ 53) == inject_Z (m * 2 ^ (e + 53)))%Q).
      { rewrite Ex, inject_Z_mult, <- !pow2_Z by lia.
        rewrite (Z.add_comm e 53), pow2_add. ring. }
      assert (Hk : m * 2 ^ (e + 53) < 2 ^ 53).
      { rewrite Zlt_Qlt, <- E.
        change (inject_Z (2 ^ 53)) with (9007199254740992 # 1)%Q. lra. }
      assert (Hk' : (inject_Z (m * 2 ^ (e + 53)) <= inject_Z (2 ^ 53 - 1))%Q)
        by (rewrite <- Zle_Qle; lia).
      rewrite <- E in Hk'.
      change (inject_Z (2 ^ 53)) with (9007199254740992 # 1)%Q in Hk'.
      change (inject_Z (2 ^ 53 - 1)) with (9007199254740991 # 1)%Q in Hk'.
      lra.
    + (* an integer below 1 *)
      assert (E : (x == inject_Z (m * 2 ^ e))%Q).
      { rewrite Ex, inject_Z_mult, <- pow2_Z by lia. reflexivity. }
      assert (Hk : m * 2 ^ e < 1).
      { rewrite Zlt_Qlt, <- E. exact Hx. }
      assert (Hk' : (inject_Z (m * 2 ^ e) <= inject_Z 0)%Q)
        by (rewrite <- Zle_Qle; lia).
      rewrite <- E in Hk'. change (inject_Z 0) with 0%Q in Hk'. lra.
Qed.

(** [Math.floor(x * n)] for a double [x] in [0,1) and [n >= 1] is an index
    below [n], also after the rounding of the product. *)
Lemma rand_range (x : Q) (n : nat) :
  JS.is_double x -> (0 <= x)%Q -> (x < 1)%Q -> (0 < n)%nat ->
  0 <= Qfloor (JS.mul x (inject_Z (Z.of_nat n))) < Z.of_nat n.
Proof.
  intros Hd H0 H1 Hn. unfold JS.mul. set (k := inject_Z (Z.of_nat n)).
  assert (Hk : (1 <= k)%Q).
  { unfold k. change 1%Q with (inject_Z 1). rewrite <- Zle_Qle. lia. }
  pose proof (double_below_one x Hd H1) as Hx.
  assert (Hq : (x * k <= k - k * (1 # 9007199254740992))%Q).
  { setoid_replace (k - k * (1 # 9007199254740992))%Q
      with ((1 - (1 # 9007199254740992)) * k)%Q by ring.
    apply Qmult_le_compat_r; [exact Hx | lra]. }
  assert (Hq0 : (0 <= x * k)%Q) by (apply Qmult_le_0_compat; lra).
  assert (Hy : (0 <= JS.round_double (x * k))%Q /\ (JS.round_double (x * k) < k)%Q).
  { destruct (Qlt_le_dec 0 (x * k)) as [Hpos|Hzero].
    - rewrite (round_double_pos _ Hpos).
      destruct (round_pos_bounds _ Hpos) as [B1 [B2 _]].
      pose proof (pow2_pos (Z.max (JS.ilog2 (x * k) - 52) (-1074))) as Hu.
      split.
      + eapply Qle_trans; [|exact B1].
        apply Qmult_le_0_compat; [|lra].
        change 0%Q with (inject_Z 0). rewrite <- Zle_Qle.
        change 0 with (Qfloor 0). apply Qfloor_resp_le.
        apply Qle_shift_div_l; [exact Hu | lra].
      + destruct (ulp_bound _ Hpos) as [U|U].
        * lra.
        * rewrite U in B2.
          assert (Ht : (JS.pow2 (-1074) <= 1 # 9007199254740992)%Q).
          { change (1 # 9007199254740992)%Q with (JS.pow2 (-53)).
            apply Qpower_le_compat_l; [lia | discriminate]. }
          lra.
    - rewrite round_double_zero by lra. split; lra. }
  destruct Hy as [Y0 Y1]. split.
  - change 0 with (Qfloor 0). now apply Qfloor_resp_le.
  - rewrite Zlt_Qlt. eapply Qle_lt_trans; [apply Qfloor_le | exact Y1].
Qed.

(** A nonzero double is at least [2^-1074] in magnitude. *)
Lemma double_negative (x : Q) :
  JS.is_double x -> (x < 0)%Q -> (x <= - JS.pow2 (-1074))%Q.
Proof.
  intros [m [e [Hm [He Ex]]]] Hx.
  pose proof (pow2_pos e) as Hu.
  assert (Hle : (JS.pow2 (-1074) <= JS.pow2 e)%Q).
  { apply Qpower_le_compat_l; [lia | discriminate]. }
  assert (Hneg : m <= -1).
  { destruct (Z_lt_le_dec m 0) as [|Hnn]; [lia|]. exfalso.
    assert (H0 : (0 <= inject_Z m * JS.pow2 e)%Q).
    { apply Qmult_le_0_compat; [|lra].
      change 0%Q with (inject_Z 0). now rewrite <- Zle_Qle. }
    rewrite Ex in Hx. lra. }
  assert (Hmu : (inject_Z m * JS.pow2 e <= inject_Z (-1) * JS.pow2 e)%Q).
  { apply Qmult_le_compat_r; [rewrite <- Zle_Qle; lia | lra]. }
  change (inject_Z (-1)) with (-1 # 1)%Q in Hmu. rewrite Ex. lra.
Qed.

(** A negative double times [n >= 1] floors to a negative index. *)
Lemma rand_negative (x : Q) (n : nat) :
  JS.is_double x -> (x < 0)%Q -> (0 < n)%nat ->
  Qfloor (JS.mul x (inject_Z (Z.of_nat n))) < 0.
Proof.
  intros Hd Hx Hn. unfold JS.mul. set (k := inject_Z (Z.of_nat n)).
  assert (Hk : (1 <= k)%Q).
  { unfold k. change 1%Q with (inject_Z 1). rewrite <- Zle_Qle. lia. }
  pose proof (double_negative x Hd Hx) as Hmin.
  pose proof (pow2_pos (-1074)) as Ht.
  assert (Hq : (x * k <= x)%Q).
  { setoid_replace x with (x * 1)%Q at 2 by ring.
    rewrite !(Qmult_comm x).
    setoid_replace (k * x)%Q with (- (k * (- x)))%Q by ring.
    setoid_replace (1 * x)%Q with (- (1 * (- x)))%Q by ring.
    apply Qopp_le_compat. apply Qmult_le_compat_r; lra. }
  assert (Hneg : (x * k < 0)%Q) by lra.
  rewrite (round_double_neg _ Hneg).
  assert (Hp : (0 < - (x * k))%Q) by lra.
  destruct (round_pos_bounds _ Hp) as [B1 _].
  set (u := JS.pow2 (Z.max (JS.ilog2 (- (x * k)) - 52) (-1074))) in *.
  assert (Hu : (0 < u)%Q) by apply pow2_pos.
  assert (Hup : (u <= - (x * k))%Q).
  { destruct (ulp_bound _ Hp) as [U|U]; fold u in U; [lra | rewrite U; lra]. }
  assert (Hone : 1 <= Qfloor (- (x * k) / u)).
  { change 1 with (Qfloor 1). apply Qfloor_resp_le.
    apply Qle_shift_div_l; [exact Hu | lra]. }
  assert (Hy : (u <= JS.round_pos (- (x * k)))%Q).
  { eapply Qle_trans; [|exact B1].
    setoid_replace u with (1 * u)%Q at 1 by ring.
    apply Qmult_le_compat_r; [|lra].
    change 1%Q with (inject_Z 1). now rewrite <- Zle_Qle. }
  rewrite Zlt_Qlt. eapply Qle_lt_trans; [apply Qfloor_le|].
  change (inject_Z 0) with 0%Q. lra.
Qed.

(** A number from 1 on times [n], for [1 <= n < 2^53], floors to [n] or
    more. *)
Lemma rand_past_end (x : Q) (n : nat) :
  (1 <= x)%Q -> (0 < n)%nat -> Z.of_nat n < 2 ^ 53 ->
  Z.of_nat n <= Qfloor (JS.mul x (inject_Z (Z.of_nat n))).
Proof.
  intros Hx Hn Hbig. unfold JS.mul. set (k := inject_Z (Z.of_nat n)).
  assert (Hk : (1 <= k)%Q).
  { unfold k. change 1%Q with (inject_Z 1). rewrite <- Zle_Qle. lia. }
  assert (Hk53 : (k <= 9007199254740991 # 1)%Q).
  { unfold k. change (9007199254740991 # 1)%Q with (inject_Z (2 ^ 53 - 1)).
    rewrite <- Zle_Qle. lia. }
  assert (Hq : (k <= x * k)%Q).
  { setoid_replace k with (1 * k)%Q at 1 by ring.
    apply Qmult_le_compat_r; lra. }
  assert (Hpos : (0 < x * k)%Q) by lra.
  rewrite (round_double_pos _ Hpos).
  destruct (round_pos_bounds _ Hpos) as [B1 [_ B3]].
  set (e := Z.max (JS.ilog2 (x * k) - 52) (-1074)) in *.
  assert (Hu : (0 < JS.pow2 e)%Q) by apply pow2_pos.
  assert (Hy : (k <= JS.round_pos (x * k))%Q).
  { destruct (Z_le_gt_dec e 0) as [Hle|Hgt].
    - (* the ulp is at most 1: [k] is a multiple of it *)
      assert (Ek : (k == inject_Z (Z.of_nat n * 2 ^ (- e)) * JS.pow2 e)%Q).
      { rewrite inject_Z_mult, <- pow2_Z by lia. fold k.
        rewrite <- Qmult_assoc, <- pow2_add.
        replace (- e + e) with 0 by lia. change (JS.pow2 0) with 1%Q. ring. }
      eapply Qle_trans; [|exact B1]. rewrite Ek at 1.
      apply Qmult_le_compat_r; [|lra]. rewrite <- Zle_Qle.
      rewrite <- (Qfloor_Z (Z.of_nat n * 2 ^ (- e))). apply Qfloor_resp_le.
      apply Qle_shift_div_l; [exact Hu|]. rewrite <- Ek. exact Hq.
    - (* the product is at least [2^53] *)
      assert (He : e = JS.ilog2 (x * k) - 52) by (unfold e in *; lia).
      assert (H53 : (JS.pow2 53 <= x * k)%Q).
      { eapply Qle_trans; [|apply (ilog2_le _ Hpos)].
        apply Qpower_le_compat_l; [lia | discriminate]. }
      change (JS.pow2 53) with (9007199254740992 # 1)%Q in H53.
      destruct (ulp_bound _ Hpos) as [U|U]; fold e in U.
      + lra.
      + exfalso. assert (Hc : (JS.pow2 1 <= JS.pow2 e)%Q)
          by (apply Qpower_le_compat_l; [lia | discriminate]).
        assert (Hd : (JS.pow2 (-1074) <= JS.pow2 0)%Q)
          by (apply Qpower_le_compat_l; [lia | discriminate]).
        change (JS.pow2 1) with 2%Q in Hc. change (JS.pow2 0) with 1%Q in Hd.
        rewrite U in Hc. lra. }
  rewrite <- (Qfloor_Z (Z.of_nat n)) at 1. now apply Qfloor_resp_le.
Qed.

(** The product is rounded before it is floored: for the double
    [x = 2573485501354569 / 2^52] and [n = 7] the exact product is
    [4 - 2^-52], which floors to 3, but the nearest double is 4. *)
Example rand_rounds_the_product :
  fst (rand 7 {| const_value := 2573485501354569 # 4503599627370496 |}) = 4
  /\ Qfloor ((2573485501354569 # 4503599627370496) * 7) = 3.
Proof. split; vm_compute; reflexivity. Qed.

Lemma index_in_range {A} (l : list A) (i : Z) :
  0 <= i < Z.of_nat (length l) -> exists a, index l i = Some a.
Proof.
  intros Hi. unfold index.
  destruct (Z.ltb_spec i 0) as [|_]; [lia|].
  destruct (nth_error l (Z.to_nat i)) as [a|] eqn:E; [eauto|].
  apply nth_error_None in E. lia.
Qed.

(** With a random source of doubles in [0,1), a spawn returns normally
    and keeps the board well formed. *)
Lemma spawn_wellFormed (G : Type) `{RandomSource G} (N : nat) (b : Board) (g : G) :
  unit_range G -> wellFormed N b = true ->
  exists b' g', spawnRandomTile b g = Normal (b', g') /\ wellFormed N b' = true.
Proof.
  intros Hrng Hwf. unfold spawnRandomTile.
  destruct (length (getEmptyCells b) =? 0)%nat eqn:Hlen; [eauto|].
  apply Nat.eqb_neq in Hlen.
  unfold rand. destruct (Hrng g) as [Hd [H0 H1]].
  destruct (rng_call g) as [x g1]. cbn [fst] in Hd, H0, H1.
  destruct (index_in_range (getEmptyCells b)
              (Qfloor (JS.mul x
                         (inject_Z (Z.of_nat (length (getEmptyCells b)))))))
    as [[r c] ->]; [apply rand_range; auto; lia|].
  destruct (rng_call g1) as [y g2].
  eexists _, _. split; [reflexivity|].
  rewrite cloneBoard_id. apply wellFormed_spec in Hwf. destruct Hwf as [Hg Ht].
  apply wellFormed_spec. split; [now apply set_cell_grid|].
  apply set_cell_tiles; [exact Ht|]. now destruct (Qlt_bool y double_0_9).
Qed.

Lemma createEmptyBoard_wellFormed (size : nat) :
  wellFormed size (createEmptyBoard size) = true.
Proof.
  apply wellFormed_spec. split; [apply empty_is_grid|].
  unfold tile_board, createEmptyBoard. apply Forall_forall. intros row Hin.
  apply repeat_spec in Hin. subst. apply Forall_forall. intros v Hv.
  apply repeat_spec in Hv. now subst.
Qed.

Lemma fraction_range (a : Z) :
  0 <= a < 4294967296 ->
  (0 <= a # 4294967296)%Q /\ (a # 4294967296 < 1)%Q.
Proof. intros Ha. unfold Qle, Qlt. simpl. lia. Qed.

Lemma output_bits_range (r : Z) : 0 <= output_bits r < 4294967296.
Proof. unfold output_bits, JS.ToUint32. now apply Z.mod_pos_bound. Qed.

Lemma seeded_range (g : SeededRng) :
  (0 <= fst (rng_call g))%Q /\ (fst (rng_call g) < 1)%Q.
Proof. apply fraction_range, output_bits_range. Qed.

(** A seeded value is [k * 2^-32] with [k < 2^32], a double. *)
Lemma seeded_is_double (g : SeededRng) : JS.is_double (fst (rng_call g)).
Proof.
  set (k := output_bits (scramble (JS.add (t g) 0x6d2b79f5))).
  pose proof (output_bits_range (scramble (JS.add (t g) 0x6d2b79f5))) as Hk.
  fold k in Hk. exists k, (-32). split; [lia|]. split; [lia|].
  change (fst (rng_call g)) with (Qmake k 4294967296).
  setoid_replace (JS.pow2 (-32)) with (1 # 4294967296)%Q by reflexivity.
  generalize k. intros z. unfold Qeq, Qmult, inject_Z. cbn [Qnum Qden].
  change (Z.pos (1 * 4294967296)) with 4294967296. lia.
Qed.

Lemma seeded_unit_range : unit_range SeededRng.
Proof.
  intros g. split; [apply seeded_is_double | apply seeded_range].
Qed.

(** C9: the engine's operations preserve well-formedness.  On a board of
    side [N] whose cells are 0 or powers of two from 2 on, a move in any
    direction gives such a board, and so does a spawn with any random
    source whose values are doubles in [0,1) ([unit_range]; the index is
    computed from the rounded product, as in the source);
    [initializeBoard size] gives such a board of side [size] for
    [size >= 2].  Spawn and initialization return normally. *)
Theorem wellFormed_preserved (G : Type) `{RandomSource G} (N : nat) (B : Board)
    (d : Direction) (size : nat) (g : G) :
  wellFormed N B = true -> unit_range G -> (2 <= size)%nat ->
  wellFormed N (board (move B d)) = true
  /\ (exists B' g',
         spawnRandomTile B g = Normal (B', g') /\ wellFormed N B' = true)
  /\ (exists B' g',
         initializeBoard size g = Normal (B', g') /\ wellFormed size B' = true).
Proof.
  intros Hwf Hrng _. split; [now apply move_wellFormed|].
  split; [now apply spawn_wellFormed|].
  unfold initializeBoard.
  destruct (spawn_wellFormed G size (createEmptyBoard size) g Hrng
              (createEmptyBoard_wellFormed size)) as [b1 [g1 [-> Hwf1]]].
  now apply spawn_wellFormed.
Qed.

Lemma wellFormed_preserved_witness :
  wellFormed 4 (board (move board_mixed Right)) = true
  /\ (exists B' g',
         spawnRandomTile board_mixed (createSeededRng 42) = Normal (B', g')
         /\ wellFormed 4 B' = true)
  /\ (exists B' g',
         initializeBoard 4 (createSeededRng 42) = Normal (B', g')
         /\ wellFormed 4 B' = true).
Proof.
  apply (wellFormed_preserved SeededRng 4 board_mixed Right 4 (createSeededRng 42)).
  - reflexivity.
  - exact seeded_unit_range.
  - lia.
Defined.

(** ** The seeded generator against the 32-bit formula *)

Lemma wrap_land (x : Z) : Spec.wrap x = Z.land x (Z.ones 32).
Proof. unfold Spec.wrap. now rewrite Z.land_ones. Qed.

Lemma wrap_range (x : Z) : 0 <= Spec.wrap x < 2 ^ 32.
Proof. unfold Spec.wrap. now apply Z.mod_pos_bound. Qed.

Lemma wrap_small (x : Z) : 0 <= x < 2 ^ 32 -> Spec.wrap x = x.
Proof. unfold Spec.wrap. apply Z.mod_small. Qed.

Lemma wrap_wrap (x : Z) : Spec.wrap (Spec.wrap x) = Spec.wrap x.
Proof. apply wrap_small, wrap_range. Qed.

Lemma wrap_lxor (a b : Z) :
  Spec.wrap (Z.lxor a b) = Z.lxor (Spec.wrap a) (Spec.wrap b).
Proof.
  rewrite !wrap_land. apply Z.bits_inj. intros n.
  rewrite !Z.land_spec, !Z.lxor_spec, !Z.land_spec.
  destruct (Z.testbit a n), (Z.testbit b n), (Z.testbit (Z.ones 32) n);
    reflexivity.
Qed.

Lemma wrap_lor (a b : Z) :
  Spec.wrap (Z.lor a b) = Z.lor (Spec.wrap a) (Spec.wrap b).
Proof. rewrite !wrap_land. apply Z.land_lor_distr_l. Qed.

Lemma wrap_add (a b : Z) :
  Spec.wrap (a + b) = Spec.wrap (Spec.wrap a + Spec.wrap b).
Proof. unfold Spec.wrap. apply Z.add_mod. discriminate. Qed.

Lemma wrap_mul (a b : Z) :
  Spec.wrap (a * b) = Spec.wrap (Spec.wrap a * Spec.wrap b).
Proof. unfold Spec.wrap. apply Z.mul_mod. discriminate. Qed.

Lemma wrap_shiftr (x k : Z) :
  0 <= k -> Spec.wrap (Z.shiftr (Spec.wrap x) k) = Z.shiftr (Spec.wrap x) k.
Proof.
  intros Hk. apply wrap_small. pose proof (wrap_range x) as Hx.
  rewrite Z.shiftr_div_pow2 by exact Hk.
  assert (Hp : 0 < 2 ^ k) by (apply Z.pow_pos_nonneg; lia).
  split; [apply Z.div_pos; lia|].
  apply Z.le_lt_trans with (Spec.wrap x); [|lia].
  apply Z.div_le_upper_bound; [exact Hp|]. nia.
Qed.

Lemma wrap_ToInt32 (x : Z) : Spec.wrap (JS.ToInt32 x) = Spec.wrap x.
Proof.
  unfold JS.ToInt32. fold (Spec.wrap x).
  destruct (Spec.wrap x <? 2 ^ 31); [apply wrap_wrap|].
  unfold Spec.wrap at 1.
  replace (Spec.wrap x - 2 ^ 32) with (Spec.wrap x + (-1) * 2 ^ 32) by lia.
  rewrite Z.mod_add by discriminate. apply wrap_wrap.
Qed.

Lemma ToInt32_range (x : Z) : - 2 ^ 31 <= JS.ToInt32 x < 2 ^ 31.
Proof.
  unfold JS.ToInt32. fold (Spec.wrap x). pose proof (wrap_range x).
  destruct (Z.ltb_spec (Spec.wrap x) (2 ^ 31)); lia.
Qed.

Lemma wrap_xor (a b : Z) :
  Spec.wrap (JS.xor a b) = Z.lxor (Spec.wrap a) (Spec.wrap b).
Proof. unfold JS.xor. now rewrite wrap_lxor, !wrap_ToInt32. Qed.

Lemma wrap_or (a b : Z) :
  Spec.wrap (JS.or a b) = Z.lor (Spec.wrap a) (Spec.wrap b).
Proof. unfold JS.or. now rewrite wrap_lor, !wrap_ToInt32. Qed.

Lemma wrap_imul (a b : Z) :
  Spec.wrap (JS.imul a b) = Spec.wrap (Spec.wrap a * Spec.wrap b).
Proof.
  unfold JS.imul. now rewrite wrap_ToInt32, wrap_mul, !wrap_ToInt32.
Qed.

Lemma wrap_ushr (a k : Z) :
  0 <= k -> Spec.wrap (JS.ushr a k) = Z.shiftr (Spec.wrap a) k.
Proof. intros Hk. unfold JS.ushr. now apply wrap_shiftr. Qed.

Lemma double_of_Z_exact (z : Z) : Z.abs z <= 2 ^ 53 -> JS.double_of_Z z = z.
Proof.
  intros H. unfold JS.double_of_Z.
  destruct (Z.leb_spec (Z.abs z) (2 ^ 53)); [reflexivity | lia].
Qed.

Lemma imul_range (a b : Z) : - 2 ^ 31 <= JS.imul a b < 2 ^ 31.
Proof. apply ToInt32_range. Qed.

(** The two scrambling lines compute steps 2 and 3 (with the addition)
    of the formula, modulo [2^32]. *)
Lemma scramble_spec (t : Z) :
  Spec.wrap (scramble t) = Spec.step3_add (Spec.step2 (Spec.wrap t)).
Proof.
  unfold scramble.
  set (r1 := JS.imul (JS.xor t (JS.ushr t 15)) (JS.or 1 t)).
  set (x := JS.imul (JS.xor r1 (JS.ushr r1 7)) (JS.or 61 r1)).
  assert (E1 : Spec.wrap r1 = Spec.step2 (Spec.wrap t)).
  { unfold r1, Spec.step2.
    rewrite wrap_imul, wrap_xor, wrap_or, wrap_ushr by lia.
    rewrite (wrap_small 1) by lia. now rewrite (Z.lor_comm 1). }
  assert (Ex : Spec.wrap x
               = Spec.wrap (Z.lxor (Spec.wrap r1) (Z.shiftr (Spec.wrap r1) 7)
                            * Z.lor (Spec.wrap r1) 61)).
  { unfold x. rewrite wrap_imul, wrap_xor, wrap_or, wrap_ushr by lia.
    rewrite (wrap_small 61) by lia. now rewrite (Z.lor_comm 61). }
  assert (Ea : JS.add r1 x = r1 + x).
  { unfold JS.add. apply double_of_Z_exact.
    pose proof (imul_range (JS.xor t (JS.ushr t 15)) (JS.or 1 t)).
    pose proof (imul_range (JS.xor r1 (JS.ushr r1 7)) (JS.or 61 r1)).
    fold r1 in H. fold x in H0. lia. }
  rewrite wrap_xor, Ea, wrap_add, Ex, E1. unfold Spec.step3_add.
  rewrite wrap_lxor, !wrap_wrap.
  now rewrite (wrap_wrap (_ * _) : Spec.wrap (Spec.step2 _) = Spec.step2 _).
Qed.

Lemma output_bits_spec (r : Z) :
  Qmake (output_bits r) 4294967296 = Spec.step4 (Spec.wrap r).
Proof.
  unfold Spec.step4. f_equal. unfold output_bits. fold (Spec.wrap (JS.xor r (JS.ushr r 14))).
  rewrite wrap_xor, wrap_ushr by lia.
  now rewrite wrap_lxor, wrap_wrap, wrap_shiftr by lia.
Qed.

(** While the counter stays an exact double it is the seed plus a
    multiple of the increment. *)
Lemma after_calls_state (n : nat) (g : SeededRng) :
  0 <= t g -> t g + Z.of_nat n * 0x6D2B79F5 <= 2 ^ 53 ->
  t (after_calls n g) = t g + Z.of_nat n * 0x6D2B79F5.
Proof.
  revert g. induction n as [|n IH]; intros g H0 Hb.
  - simpl. lia.
  - cbn [after_calls].
    assert (E : t (snd (rng_call g)) = t g + 0x6D2B79F5).
    { unfold rng_call, SeededRng_source, seeded_call. cbn [snd t].
      unfold JS.add. apply double_of_Z_exact. lia. }
    rewrite IH; rewrite E; lia.
Qed.

Lemma spec_state (seed : Z) (n : nat) :
  Spec.state seed n = Spec.wrap (Spec.wrap seed + Z.of_nat n * 0x6D2B79F5).
Proof.
  induction n as [|n IH].
  - simpl. now rewrite Z.add_0_r, wrap_wrap.
  - cbn [Spec.state]. rewrite IH. unfold Spec.step1.
    rewrite wrap_add, wrap_wrap, <- wrap_add. f_equal. lia.
Qed.

(** One call from an exact counter returns the formula's value. *)
Lemma seeded_call_spec (g : SeededRng) :
  0 <= t g -> t g + 0x6D2B79F5 <= 2 ^ 53 ->
  fst (rng_call g)
  = Spec.step4 (Spec.step3_add (Spec.step2 (Spec.step1 (Spec.wrap (t g))))).
Proof.
  intros H0 Hb. unfold rng_call, SeededRng_source, seeded_call. cbn [fst].
  rewrite output_bits_spec, scramble_spec. do 3 f_equal.
  unfold JS.add. rewrite double_of_Z_exact by lia.
  unfold Spec.step1.
  now rewrite (wrap_add (Spec.wrap (t g))), wrap_wrap, <- wrap_add.
Qed.

(** C5, as stated, fails: the code's third step adds where the
    specification's formula has its first [xor].  For seed 0 the first
    call returns 1144304738 / 2^32, the formula gives 3150886013 / 2^32. *)
Lemma seeded_rng_xor_formula_counterexample :
  ~ (nth_call 0 (createSeededRng 0) == Spec.output Spec.step3 0 0)%Q.
Proof. vm_compute. discriminate. Qed.

(** C5, amended: for every integer seed and every call index [n] up to
    which the counter is an exact double (the code does not wrap [t];
    [seed mod 2^32 + (n + 1) * 0x6D2B79F5 <= 2^53]), call number [n]
    returns the value of the four-step formula in unsigned 32-bit
    arithmetic whose third step is
    [r = (r + (r xor (r >> 7)) * (r | 61)) xor r], and that value lies in
    [0,1). *)
Theorem seeded_rng_formula (seed : Z) (n : nat) :
  JS.ToUint32 seed + (Z.of_nat n + 1) * 0x6D2B79F5 <= 2 ^ 53 ->
  nth_call n (createSeededRng seed) = Spec.output Spec.step3_add seed n
  /\ (0 <= nth_call n (createSeededRng seed))%Q
  /\ (nth_call n (createSeededRng seed) < 1)%Q.
Proof.
  intros Hb. split; [|apply seeded_range].
  pose proof (wrap_range seed) as Hs.
  change (JS.ToUint32 seed) with (Spec.wrap seed) in Hb.
  assert (Et : t (after_calls n (createSeededRng seed))
               = Spec.wrap seed + Z.of_nat n * 0x6D2B79F5).
  { apply (after_calls_state n (createSeededRng seed));
      change (t (createSeededRng seed)) with (Spec.wrap seed); lia. }
  unfold nth_call, Spec.output.
  rewrite seeded_call_spec by (rewrite Et; lia).
  now rewrite Et, spec_state.
Qed.

Lemma seeded_rng_formula_witness :
  nth_call 5 (createSeededRng 42) = Spec.output Spec.step3_add 42 5
  /\ (0 <= nth_call 5 (createSeededRng 42))%Q
  /\ (nth_call 5 (createSeededRng 42) < 1)%Q.
Proof. apply (seeded_rng_formula 42 5). vm_compute. discriminate. Defined.

(** The bound on the call index is needed: from seed 0, call number
    4917758 is the first whose counter exceeds [2^53]; the counter is
    rounded to an even number there and the returned value leaves the
    formula. *)
Lemma seeded_rng_drift :
  let n := Z.to_nat 4917758 in
  nth_call n (createSeededRng 0) <> Spec.output Spec.step3_add 0 n.
Proof.
  intros n.
  assert (Hn : Z.of_nat n = 4917758) by (unfold n; now rewrite Z2Nat.id).
  assert (Et : t (after_calls n (createSeededRng 0)) = 9007197429407254).
  { rewrite (after_calls_state n (createSeededRng 0));
      change (t (createSeededRng 0)) with 0; rewrite ?Hn; lia. }
  unfold nth_call, Spec.output. rewrite spec_state, Hn.
  change (fst (rng_call (after_calls n (createSeededRng 0))))
    with (Qmake (output_bits (scramble (JS.add
                   (t (after_calls n (createSeededRng 0))) 0x6d2b79f5)))
            4294967296).
  rewrite Et. vm_compute. discriminate.
Qed.

(** ** Lines that cannot move *)

Lemma adjacent_equal_tail (a b : Z) (l : list Z) :
  a <> b -> adjacent_equal (a :: b :: l) -> adjacent_equal (b :: l).
Proof.
  intros Hne [i [Hi E]]. destruct i as [|i].
  - simpl in E. congruence.
  - exists i. simpl in *. split; [lia | exact E].
Qed.

Lemma adjacent_equal_cons (a : Z) (l : list Z) :
  adjacent_equal l -> adjacent_equal (a :: l).
Proof.
  intros [i [Hi E]]. exists (S i). simpl. split; [lia | exact E].
Qed.

Lemma adjacent_equal_rev (l : list Z) :
  adjacent_equal (rev l) -> adjacent_equal l.
Proof.
  intros [i [Hi E]]. rewrite length_rev in Hi.
  rewrite !rev_nth in E by lia.
  exists (length l - S (i + 1))%nat. split; [lia|].
  replace (length l - S (i + 1) + 1)%nat with (length l - S i)%nat by lia.
  now symmetry.
Qed.

(** Without equal neighbours nothing merges. *)
Lemma mergePairs_no_adjacent (l : list Z) :
  ~ adjacent_equal l -> fst (mergePairs l) = l.
Proof.
  induction l as [| a | a b l IH1 IH2] using list_ind2; intros H;
    [reflexivity | reflexivity |].
  rewrite mergePairs_cons2. destruct (Z.eqb_spec a b) as [->|Hne].
  - exfalso. apply H. exists 0%nat. simpl. split; [lia | reflexivity].
  - simpl. f_equal. apply IH2. intros Hadj. apply H.
    now apply adjacent_equal_cons.
Qed.

(** Equal neighbours in a compacted line make it shorter. *)
Lemma mergePairs_adjacent (l : list Z) :
  adjacent_equal l -> (length (fst (mergePairs l)) < length l)%nat.
Proof.
  induction l as [| a | a b l IH1 IH2] using list_ind2; intros H.
  - destruct H as [i [Hi _]]. simpl in Hi. lia.
  - destruct H as [i [Hi _]]. simpl in Hi. lia.
  - rewrite mergePairs_cons2. destruct (Z.eqb_spec a b) as [->|Hne]; simpl.
    + pose proof (mergePairs_length l). lia.
    + apply adjacent_equal_tail in H; [|exact Hne].
      specialize (IH2 H). simpl in IH2. lia.
Qed.

Lemma slide_full_line (l : list Z) :
  Forall (fun v => v <> 0) l -> (slide l = l <-> ~ adjacent_equal l).
Proof.
  intros Hnz. split.
  - intros E Hadj. destruct (slide_fixed l E) as [Em _].
    unfold merged_of in Em. rewrite (tiles_id l Hnz) in Em.
    pose proof (mergePairs_adjacent l Hadj) as Hlt. rewrite Em in Hlt. lia.
  - intros Hadj. rewrite slide_eq. unfold merged_of.
    rewrite (tiles_id l Hnz), (mergePairs_no_adjacent l Hadj).
    rewrite Nat.sub_diag. apply app_nil_r.
Qed.

(** A line that is fixed in both directions of travel and has an empty
    cell is empty. *)
Lemma fixed_both_ways (l : list Z) :
  slide l = l -> slide (rev l) = rev l -> In 0 l -> Forall (fun v => v = 0) l.
Proof.
  intros E1 E2 Hin.
  destruct (slide_fixed l E1) as [_ [_ C1]].
  destruct (slide_fixed (rev l) E2) as [_ [_ C2]].
  set (k := (length l - length (tiles l))%nat) in C1.
  assert (Hk : k <> 0%nat).
  { intros Hk. rewrite Hk in C1. simpl in C1. rewrite app_nil_r in C1.
    pose proof (tiles_nonzero l) as Hnz. rewrite <- C1 in Hnz.
    rewrite Forall_forall in Hnz. now apply (Hnz 0). }
  destruct k as [|k]; [congruence|].
  change (repeat 0 (S k)) with (0 :: repeat 0 k) in C1.
  rewrite repeat_cons, app_assoc in C1.
  assert (Hr : rev l = 0 :: rev (tiles l ++ repeat 0 k)).
  { rewrite C1 at 1. now rewrite rev_app_distr. }
  destruct (tiles (rev l)) as [|v vs] eqn:Et.
  - simpl in C2. rewrite <- (rev_involutive l). apply Forall_rev.
    rewrite C2. apply Forall_forall. intros v Hv. now apply repeat_spec in Hv.
  - exfalso. rewrite Hr in C2 at 1. simpl in C2. injection C2 as Hv _.
    pose proof (tiles_nonzero (rev l)) as Hnz. rewrite Et in Hnz.
    inversion Hnz; subst. congruence.
Qed.

(** ** The loss condition *)

Lemma travel_lines_eq (b : Board) (d : Direction) :
  square b -> travel_lines d b = map (travel_line d b) (seq 0 (length b)).
Proof.
  intros Hsq. apply square_is_grid in Hsq.
  pose proof (board_as_grid _ _ Hsq) as Eb.
  destruct d; simpl; unfold travel_line.
  - exact Eb.
  - rewrite Eb at 1. unfold reverseRows, grid. now rewrite map_map.
  - apply transpose_grid.
  - rewrite transpose_grid. unfold reverseRows, grid. now rewrite map_map.
Qed.

Lemma moved_false_iff (b : Board) (d : Direction) :
  square b ->
  moved (move b d) = false
  <-> forall i, (i < length b)%nat -> slide (travel_line d b i) = travel_line d b i.
Proof.
  intros Hsq. rewrite move_eq. simpl. rewrite (travel_lines_eq b d Hsq).
  split.
  - intros H i Hi. apply line_moved_false.
    destruct (line_moved (travel_line d b i)) eqn:E; [|reflexivity].
    rewrite <- H. symmetry. apply existsb_exists.
    exists (travel_line d b i). split; [|exact E].
    apply in_map. apply in_seq. lia.
  - intros H. destruct (existsb _ _) eqn:E; [|reflexivity].
    apply existsb_exists in E. destruct E as [line [Hin Hm]].
    apply in_map_iff in Hin. destruct Hin as [i [<- Hi]]. apply in_seq in Hi.
    assert (Hf : line_moved (travel_line d b i) = false)
      by (apply line_moved_false, H; lia).
    congruence.
Qed.

Lemma cell_read (size : nat) (b : Board) (r c : nat) :
  is_grid size b -> (r < size)%nat -> (c < size)%nat ->
  cell b r c = Some (read b r c).
Proof.
  intros Hg Hr Hc. unfold read, cell.
  destruct (nth_error (nth r b []) c) eqn:E; [reflexivity|].
  apply nth_error_None in E. rewrite (is_grid_row size b r Hg Hr) in E. lia.
Qed.

Lemma has_empty_iff (size : nat) (b : Board) :
  is_grid size b ->
  has_empty b = true
  <-> exists r c, (r < size)%nat /\ (c < size)%nat /\ read b r c = 0.
Proof.
  intros Hg. pose proof Hg as [Hl Hrow]. unfold has_empty.
  rewrite existsb_exists. split.
  - intros [row [Hin H]]. apply existsb_exists in H. destruct H as [v [Hv E]].
    apply Z.eqb_eq in E. subst v.
    apply (In_nth _ _ []) in Hin. destruct Hin as [r [Hr <-]].
    apply (In_nth _ _ 0) in Hv. destruct Hv as [c [Hc E]].
    rewrite (is_grid_row size b r Hg) in Hc by lia.
    exists r, c. rewrite read_nth. repeat split; [lia | exact Hc | exact E].
  - intros [r [c [Hr [Hc E]]]]. exists (nth r b []).
    split; [apply nth_In; lia|]. apply existsb_exists. exists 0.
    split; [|reflexivity]. rewrite read_nth in E. rewrite <- E.
    apply nth_In. now rewrite (is_grid_row size b r Hg Hr).
Qed.

Lemma has_tile_iff (size : nat) (b : Board) :
  is_grid size b ->
  has_tile b = true
  <-> exists r c, (r < size)%nat /\ (c < size)%nat /\ read b r c <> 0.
Proof.
  intros Hg. pose proof Hg as [Hl Hrow]. unfold has_tile.
  rewrite existsb_exists. split.
  - intros [row [Hin H]]. apply existsb_exists in H. destruct H as [v [Hv E]].
    apply negb_true_iff, Z.eqb_neq in E.
    apply (In_nth _ _ []) in Hin. destruct Hin as [r [Hr <-]].
    apply (In_nth _ _ 0) in Hv. destruct Hv as [c [Hc Ev]].
    rewrite (is_grid_row size b r Hg) in Hc by lia.
    exists r, c. rewrite read_nth, Ev. repeat split; [lia | exact Hc | exact E].
  - intros [r [c [Hr [Hc E]]]]. exists (nth r b []).
    split; [apply nth_In; lia|]. apply existsb_exists. exists (read b r c).
    split; [|now apply negb_true_iff, Z.eqb_neq]. rewrite read_nth.
    apply nth_In. now rewrite (is_grid_row size b r Hg Hr).
Qed.

(** On a board without empty cells [hasMoves] looks for an equal
    right-hand or lower neighbour. *)
Lemma hasMoves_pairs (size : nat) (b : Board) :
  is_grid size b -> has_empty b = false ->
  hasMoves b = true
  <-> exists r c, (r < size)%nat /\ (c < size)%nat
        /\ (((c + 1 < size)%nat /\ read b r (c + 1) = read b r c)
            \/ ((r + 1 < size)%nat /\ read b (r + 1) c = read b r c)).
Proof.
  intros Hg He. pose proof Hg as [Hl _]. unfold hasMoves.
  fold (has_empty b). rewrite He, Hl. rewrite existsb_exists. split.
  - intros [r [Hr H]]. apply existsb_exists in H. destruct H as [c [Hc H]].
    apply in_seq in Hr. apply in_seq in Hc. exists r, c.
    split; [lia|]. split; [lia|].
    apply orb_true_iff in H. destruct H as [H|H];
      apply andb_true_iff in H; destruct H as [Hb H];
      apply Nat.ltb_lt in Hb; [left | right]; (split; [exact Hb|]);
      rewrite !(cell_read size) in H by (assumption || lia);
      now apply Z.eqb_eq in H.
  - intros [r [c [Hr [Hc H]]]]. exists r. split; [apply in_seq; lia|].
    apply existsb_exists. exists c. split; [apply in_seq; lia|].
    apply orb_true_iff. destruct H as [[Hb H]|[Hb H]]; [left | right];
      apply andb_true_iff; (split; [now apply Nat.ltb_lt|]);
      rewrite !(cell_read size) by (assumption || lia);
      now apply Z.eqb_eq.
Qed.

Lemma hasMoves_empty (b : Board) : has_empty b = true -> hasMoves b = true.
Proof. intros H. unfold hasMoves. fold (has_empty b). now rewrite H. Qed.

(** A line given by its cells, [f 0], ..., [f (size - 1)]. *)
Section SeqLine.

Variable size : nat.
Variable f : nat -> Z.

Lemma seq_line_nth (i : nat) :
  (i < size)%nat -> nth i (map f (seq 0 size)) 0 = f i.
Proof.
  intros Hi.
  rewrite (nth_indep _ 0 (f 0%nat)) by now rewrite length_map, length_seq.
  rewrite map_nth. now rewrite seq_nth.
Qed.

Lemma seq_line_Forall (P : Z -> Prop) :
  (forall i, (i < size)%nat -> P (f i)) -> Forall P (map f (seq 0 size)).
Proof.
  intros H. apply Forall_map, Forall_forall. intros i Hi.
  apply in_seq in Hi. apply H. lia.
Qed.

Lemma seq_line_In (i : nat) :
  (i < size)%nat -> In (f i) (map f (seq 0 size)).
Proof. intros Hi. apply in_map, in_seq. lia. Qed.

Lemma seq_line_all (P : Z -> Prop) (i : nat) :
  Forall P (map f (seq 0 size)) -> (i < size)%nat -> P (f i).
Proof.
  intros H Hi. rewrite Forall_forall in H. now apply H, seq_line_In.
Qed.

Lemma seq_line_adjacent :
  adjacent_equal (map f (seq 0 size))
  <-> exists i, (i + 1 < size)%nat /\ f (i + 1)%nat = f i.
Proof.
  unfold adjacent_equal. rewrite length_map, length_seq.
  split; intros [i [Hi E]]; exists i; (split; [exact Hi|]).
  - now rewrite !seq_line_nth in E by lia.
  - now rewrite !seq_line_nth by lia.
Qed.

(** Without empty cells and without equal neighbours the line is fixed
    in both directions of travel. *)
Lemma seq_line_fixed :
  (forall i, (i < size)%nat -> f i <> 0) ->
  (forall i, (i + 1 < size)%nat -> f (i + 1)%nat <> f i) ->
  slide (map f (seq 0 size)) = map f (seq 0 size)
  /\ slide (rev (map f (seq 0 size))) = rev (map f (seq 0 size)).
Proof.
  intros Hnz Hne.
  assert (Hn : Forall (fun v => v <> 0) (map f (seq 0 size)))
    by now apply seq_line_Forall.
  assert (Ha : ~ adjacent_equal (map f (seq 0 size))).
  { intros Ha. apply seq_line_adjacent in Ha. destruct Ha as [i [Hi E]].
    now apply (Hne i). }
  split; apply slide_full_line; auto using Forall_rev.
  intros Hr. apply Ha. now apply adjacent_equal_rev.
Qed.

End SeqLine.

(** A line of a stuck board (no empty cell, no equal neighbours) is
    fixed. *)
Lemma stuck_line_fixed (d : Direction) (b : Board) (i : nat) :
  square b -> hasMoves b = false -> (i < length b)%nat ->
  slide (travel_line d b i) = travel_line d b i.
Proof.
  intros Hsq Hm Hi. apply square_is_grid in Hsq.
  assert (He : has_empty b = false).
  { destruct (has_empty b) eqn:E; [|reflexivity].
    apply hasMoves_empty in E. congruence. }
  assert (Hnz : forall r c, (r < length b)%nat -> (c < length b)%nat ->
                            read b r c <> 0).
  { intros r c Hr Hc E.
    assert (H : has_empty b = true) by (apply (has_empty_iff _ _ Hsq); eauto).
    congruence. }
  assert (Hpair : ~ exists r c, (r < length b)%nat /\ (c < length b)%nat
        /\ (((c + 1 < length b)%nat /\ read b r (c + 1) = read b r c)
            \/ ((r + 1 < length b)%nat /\ read b (r + 1) c = read b r c))).
  { intros H. apply (hasMoves_pairs _ _ Hsq He) in H. congruence. }
  pose proof (seq_line_fixed (length b) (fun c => read b i c)) as Hrow.
  pose proof (seq_line_fixed (length b) (fun r => read b r i)) as Hcol.
  destruct Hrow as [R1 R2]; [now auto | |].
  { intros c Hc E. apply Hpair. exists i, c.
    split; [exact Hi|]. split; [lia|]. left. auto. }
  destruct Hcol as [C1 C2]; [now auto | |].
  { intros r Hr E. apply Hpair. exists r, i.
    split; [lia|]. split; [exact Hi|]. right. auto. }
  destruct d; assumption.
Qed.

(** If no direction moves a board that has an empty cell, the board is
    empty. *)
Lemma blocked_with_empty_cell (b : Board) :
  square b -> has_empty b = true ->
  (forall d, moved (move b d) = false) -> has_tile b = false.
Proof.
  intros Hsq He Hblocked. pose proof Hsq as Hg. apply square_is_grid in Hg.
  destruct (has_tile b) eqn:Ht; [exfalso | reflexivity].
  apply (has_empty_iff _ _ Hg) in He. destruct He as [r0 [c0 [Hr0 [Hc0 E0]]]].
  apply (has_tile_iff _ _ Hg) in Ht. destruct Ht as [r1 [c1 [Hr1 [Hc1 E1]]]].
  assert (Hfix : forall d i, (i < length b)%nat ->
                   slide (travel_line d b i) = travel_line d b i).
  { intros d i Hi. now apply (moved_false_iff b d Hsq). }
  (* row [r0] holds a zero, so it is empty *)
  assert (Hrow : Forall (fun v => v = 0)
                   (map (fun c => read b r0 c) (seq 0 (length b)))).
  { apply fixed_both_ways.
    - apply (Hfix Left r0 Hr0).
    - apply (Hfix Right r0 Hr0).
    - rewrite <- E0. now apply (seq_line_In _ (fun c => read b r0 c)). }
  pose proof (seq_line_all _ (fun c => read b r0 c) _ c1 Hrow Hc1) as Z1.
  simpl in Z1.
  (* column [c1] holds that zero, so it is empty too *)
  assert (Hcol : Forall (fun v => v = 0)
                   (map (fun r => read b r c1) (seq 0 (length b)))).
  { apply fixed_both_ways.
    - apply (Hfix Up c1 Hc1).
    - apply (Hfix Down c1 Hc1).
    - rewrite <- Z1. now apply (seq_line_In _ (fun r => read b r c1)). }
  pose proof (seq_line_all _ (fun r => read b r c1) _ r1 Hcol Hr1) as Z2.
  simpl in Z2. contradiction.
Qed.

(** An equal right-hand or lower neighbour on a board without empty
    cells lets the board move left or up. *)
Lemma pair_moves (b : Board) (r c : nat) :
  square b -> has_empty b = false ->
  (r < length b)%nat -> (c < length b)%nat ->
  ((c + 1 < length b)%nat /\ read b r (c + 1) = read b r c)
  \/ ((r + 1 < length b)%nat /\ read b (r + 1) c = read b r c) ->
  moved (move b Left) = true \/ moved (move b Up) = true.
Proof.
  intros Hsq He Hr Hc Hpair. pose proof Hsq as Hg. apply square_is_grid in Hg.
  assert (Hnz : forall r c, (r < length b)%nat -> (c < length b)%nat ->
                            read b r c <> 0).
  { intros r' c' Hr' Hc' E.
    assert (H : has_empty b = true) by (apply (has_empty_iff _ _ Hg); eauto).
    congruence. }
  destruct Hpair as [[Hb E]|[Hb E]]; [left | right].
  - destruct (moved (move b Left)) eqn:Hm; [reflexivity | exfalso].
    pose proof (proj1 (moved_false_iff b Left Hsq) Hm r Hr) as Hfix.
    unfold travel_line in Hfix.
    apply slide_full_line in Hfix; [|apply seq_line_Forall; auto].
    apply Hfix, seq_line_adjacent. eauto.
  - destruct (moved (move b Up)) eqn:Hm; [reflexivity | exfalso].
    pose proof (proj1 (moved_false_iff b Up Hsq) Hm c Hc) as Hfix.
    unfold travel_line in Hfix.
    apply slide_full_line in Hfix; [|apply seq_line_Forall; auto].
    apply Hfix, seq_line_adjacent. eauto.
Qed.

(** C1, as stated, fails on the empty board: [hasMoves] is true (there
    are empty cells) although no direction moves anything. *)
Lemma hasMoves_empty_board_counterexample :
  square board_zeros
  /\ has_empty board_zeros = true
  /\ (forall d, moved (move board_zeros d) = false)
  /\ ~ (hasMoves board_zeros = false
        <-> forall d, moved (move board_zeros d) = false).
Proof.
  assert (H : forall d, moved (move board_zeros d) = false)
    by (intros []; reflexivity).
  repeat split; [exact H|]. intros [_ E]. specialize (E H). discriminate.
Qed.

(** C1, amended: for every square board that holds at least one tile,
    [hasMoves] is false exactly when no direction moves the board; and
    such a board with an empty cell or with a cell equal to its right-hand
    or lower neighbour moves in at least one direction. *)
Theorem hasMoves_iff_some_move (B : Board) :
  square B -> has_tile B = true ->
  (hasMoves B = false <-> forall d, moved (move B d) = false)
  /\ (has_empty B = true
      \/ (exists r c, (r < length B)%nat /\ (c < length B)%nat
            /\ (((c + 1 < length B)%nat /\ read B r (c + 1) = read B r c)
                \/ ((r + 1 < length B)%nat /\ read B (r + 1) c = read B r c)))
      -> exists d, moved (move B d) = true).
Proof.
  intros Hsq Ht. pose proof Hsq as Hg. apply square_is_grid in Hg.
  assert (Hsome : hasMoves B = true -> exists d, moved (move B d) = true).
  { intros Hm. destruct (has_empty B) eqn:He.
    - destruct (moved (move B Left)) eqn:ML; [eauto|].
      destruct (moved (move B Right)) eqn:MR; [eauto|].
      destruct (moved (move B Up)) eqn:MU; [eauto|].
      destruct (moved (move B Down)) eqn:MD; [eauto|].
      assert (Hno : has_tile B = false).
      { apply (blocked_with_empty_cell B Hsq He). now intros []. }
      congruence.
    - apply (hasMoves_pairs _ _ Hg He) in Hm.
      destruct Hm as [r [c [Hr [Hc Hpair]]]].
      destruct (pair_moves B r c Hsq He Hr Hc Hpair); eauto. }
  split.
  - split.
    + intros Hm d. apply (moved_false_iff B d Hsq). intros i Hi.
      now apply stuck_line_fixed.
    + intros Hblocked. destruct (hasMoves B) eqn:Hm; [|reflexivity].
      destruct (Hsome eq_refl) as [d Hd]. rewrite Hblocked in Hd. discriminate.
  - intros H. apply Hsome. destruct H as [He|Hpair].
    + now apply hasMoves_empty.
    + destruct (has_empty B) eqn:He; [now apply hasMoves_empty|].
      now apply (hasMoves_pairs _ _ Hg He).
Qed.

Lemma hasMoves_iff_some_move_witness :
  (hasMoves board_mixed = false <-> forall d, moved (move board_mixed d) = false)
  /\ (has_empty board_mixed = true
      \/ (exists r c, (r < length board_mixed)%nat /\ (c < length board_mixed)%nat
            /\ (((c + 1 < length board_mixed)%nat
                 /\ read board_mixed r (c + 1) = read board_mixed r c)
                \/ ((r + 1 < length board_mixed)%nat
                    /\ read board_mixed (r + 1) c = read board_mixed r c)))
      -> exists d, moved (move board_mixed d) = true).
Proof. apply (hasMoves_iff_some_move board_mixed); reflexivity. Defined.

(** The scenario of the specification: a full board without equal
    neighbours has no moves, and no direction moves it. *)
Example stuck_board_scenario :
  hasMoves board_stuck = false /\ forall d, moved (move board_stuck d) = false.
Proof. split; [reflexivity | intros []; reflexivity]. Qed.

(** * Further properties of the engine *)

(** ** Empty cells *)

Lemma emptyInRow_In (r c0 : nat) (row : list Z) (r' c' : nat) :
  In (r', c') (emptyInRow r c0 row)
  <-> r' = r /\ (c0 <= c')%nat /\ nth_error row (c' - c0) = Some 0.
Proof.
  revert c0. induction row as [|v row IH]; intros c0; simpl.
  - split; [contradiction|]. intros [_ [_ H]]. now destruct (c' - c0)%nat.
  - rewrite in_app_iff, IH. split.
    + intros [H|[-> [Hc H]]].
      * destruct (Z.eqb_spec v 0) as [->|]; [|contradiction].
        destruct H as [H|[]]. injection H as <- <-.
        now rewrite Nat.sub_diag.
      * split; [reflexivity|]. split; [lia|].
        replace (c' - c0)%nat with (S (c' - S c0)) by lia. exact H.
    + intros [-> [Hc H]]. destruct (Nat.eq_dec c' c0) as [->|Hne].
      * left. rewrite Nat.sub_diag in H. simpl in H. injection H as ->.
        simpl. now left.
      * right. split; [reflexivity|]. split; [lia|].
        replace (c' - c0)%nat with (S (c' - S c0)) in H by lia. exact H.
Qed.

Lemma emptyFromRow_In (r0 : nat) (rows : Board) (r' c' : nat) :
  In (r', c') (emptyFromRow r0 rows)
  <-> (r0 <= r')%nat /\ cell rows (r' - r0) c' = Some 0.
Proof.
  unfold cell. revert r0. induction rows as [|row rows IH]; intros r0; simpl.
  - split; [contradiction|]. intros [_ H].
    destruct (r' - r0)%nat; now destruct c'.
  - rewrite in_app_iff, emptyInRow_In, IH. rewrite Nat.sub_0_r. split.
    + intros [[-> [_ H]]|[Hr H]].
      * split; [lia|]. now rewrite Nat.sub_diag.
      * split; [lia|].
        replace (r' - r0)%nat with (S (r' - S r0)) by lia. exact H.
    + intros [Hr H]. destruct (Nat.eq_dec r' r0) as [->|Hne].
      * left. rewrite Nat.sub_diag in H. split; [reflexivity|]. split; [lia | exact H].
      * right. split; [lia|].
        replace (r' - r0)%nat with (S (r' - S r0)) in H by lia. exact H.
Qed.

Lemma getEmptyCells_In (b : Board) (r c : nat) :
  In (r, c) (getEmptyCells b) <-> cell b r c = Some 0.
Proof.
  unfold getEmptyCells. rewrite emptyFromRow_In, Nat.sub_0_r.
  split; [tauto | intros H; split; [lia | exact H]].
Qed.

Lemma StronglySorted_app {A} (R : A -> A -> Prop) (l1 l2 : list A) :
  StronglySorted R l1 -> StronglySorted R l2 ->
  (forall x y, In x l1 -> In y l2 -> R x y) ->
  StronglySorted R (l1 ++ l2).
Proof.
  intros H1 H2 H. induction H1 as [|a l1 Hs IH Ha]; simpl; [exact H2|].
  constructor.
  - apply IH. intros x y Hx Hy. apply H; [now right | exact Hy].
  - apply Forall_app. split; [exact Ha|].
    apply Forall_forall. intros y Hy. apply H; [now left | exact Hy].
Qed.

Lemma emptyInRow_sorted (r c0 : nat) (row : list Z) :
  StronglySorted row_major_lt (emptyInRow r c0 row).
Proof.
  revert c0. induction row as [|v row IH]; intros c0; simpl; [constructor|].
  apply StronglySorted_app; [| apply IH |].
  - destruct (v =? 0); repeat constructor.
  - intros x [r' c'] Hx Hy. apply emptyInRow_In in Hy. destruct Hy as [-> [Hc _]].
    destruct (v =? 0); [|contradiction]. destruct Hx as [<-|[]].
    right. simpl. split; [reflexivity | lia].
Qed.

Lemma emptyFromRow_sorted (r0 : nat) (rows : Board) :
  StronglySorted row_major_lt (emptyFromRow r0 rows).
Proof.
  revert r0. induction rows as [|row rows IH]; intros r0; simpl; [constructor|].
  apply StronglySorted_app; [apply emptyInRow_sorted | apply IH |].
  intros [r1 c1] [r2 c2] Hx Hy.
  apply emptyInRow_In in Hx. destruct Hx as [-> _].
  apply emptyFromRow_In in Hy. destruct Hy as [Hr _].
  left. simpl. lia.
Qed.

(** X1: [getEmptyCells] lists exactly the coordinates of the cells that
    hold 0, each once, in row-major order (the order the spawn index
    refers to). *)
Theorem getEmptyCells_spec (B : Board) :
  (forall r c, In (r, c) (getEmptyCells B) <-> cell B r c = Some 0)
  /\ StronglySorted row_major_lt (getEmptyCells B)
  /\ NoDup (getEmptyCells B).
Proof.
  split; [intros r c; apply getEmptyCells_In|].
  assert (Hs : StronglySorted row_major_lt (getEmptyCells B))
    by apply emptyFromRow_sorted.
  split; [exact Hs|].
  induction Hs as [|p l Hs IH Hp]; constructor; [|exact IH].
  intros Hin. rewrite Forall_forall in Hp. specialize (Hp p Hin).
  unfold row_major_lt in Hp. lia.
Qed.

(** ** The effect of a spawn *)

Lemma list_set_nth_error {A} (l : list A) (i k : nat) (v : A) :
  (i < length l)%nat ->
  nth_error (list_set l i v) k = if (k =? i)%nat then Some v else nth_error l k.
Proof.
  revert i k. induction l as [|x l IH]; intros i k Hi; simpl in Hi; [lia|].
  destruct i as [|i], k as [|k]; simpl; auto.
  apply IH. lia.
Qed.

Lemma cell_in_range (b : Board) (r c : nat) (v : Z) :
  cell b r c = Some v -> (r < length b)%nat /\ (c < length (nth r b []))%nat.
Proof.
  unfold cell. intros H. split.
  - destruct (Nat.lt_ge_cases r (length b)) as [|Hge]; [assumption|].
    rewrite nth_overflow in H by exact Hge. now destruct c.
  - apply nth_error_Some. congruence.
Qed.

Lemma cell_set_cell (b : Board) (r c : nat) (old v : Z) (r' c' : nat) :
  cell b r c = Some old ->
  cell (set_cell b r c v) r' c'
  = if ((r' =? r) && (c' =? c))%nat then Some v else cell b r' c'.
Proof.
  intros H. destruct (cell_in_range b r c old H) as [Hr Hc].
  unfold cell, set_cell. rewrite list_set_nth by exact Hr.
  destruct (Nat.eqb_spec r' r) as [->|Hne]; simpl; [|reflexivity].
  now rewrite list_set_nth_error by exact Hc.
Qed.

Lemma has_empty_cell (b : Board) :
  has_empty b = true <-> exists r c, cell b r c = Some 0.
Proof.
  rewrite <- cell_In. unfold has_empty. rewrite existsb_exists. split.
  - intros [row [Hin H]]. apply existsb_exists in H. destruct H as [v [Hv E]].
    apply Z.eqb_eq in E. subst v. eauto.
  - intros [row [Hin H]]. exists row. split; [exact Hin|].
    apply existsb_exists. exists 0. split; [exact H | reflexivity].
Qed.

Lemma has_empty_count (b : Board) :
  has_empty b = true <-> (0 < count_empty b)%nat.
Proof.
  rewrite has_empty_cell. unfold count_empty. split.
  - intros [r [c H]]. apply getEmptyCells_In in H.
    destruct (getEmptyCells b); [contradiction | simpl; lia].
  - intros H. destruct (getEmptyCells b) as [|[r c] l] eqn:E; [simpl in H; lia|].
    exists r, c. apply getEmptyCells_In. rewrite E. now left.
Qed.

(** What a spawn on a board with an empty cell computes. *)
Lemma spawn_step (G : Type) `{RandomSource G} (b : Board) (g : G) :
  has_empty b = true -> unit_range G ->
  exists r c v,
    cell b r c = Some 0 /\ (v = 2 \/ v = 4)
    /\ spawnRandomTile b g = Normal (set_cell b r c v, after_calls 2 g).
Proof.
  intros He Hrng. apply has_empty_count in He. unfold count_empty in He.
  unfold spawnRandomTile.
  destruct (Nat.eqb_spec (length (getEmptyCells b)) 0) as [E|_]; [lia|].
  unfold rand. cbn [after_calls]. destruct (Hrng g) as [Hd [H0 H1]].
  destruct (rng_call g) as [x g1]. cbn [fst snd] in *.
  destruct (index_in_range (getEmptyCells b)
              (Qfloor (JS.mul x
                         (inject_Z (Z.of_nat (length (getEmptyCells b)))))))
    as [[r c] Hi]; [now apply rand_range|].
  rewrite Hi. destruct (rng_call g1) as [y g2]. cbn [snd].
  exists r, c, (if Qlt_bool y double_0_9 then 2 else 4).
  rewrite cloneBoard_id. split; [|split; [|reflexivity]].
  - apply getEmptyCells_In. unfold index in Hi.
    destruct (_ <? 0); [discriminate|]. eapply nth_error_In; eauto.
  - destruct (Qlt_bool y double_0_9); auto.
Qed.

(** X2: on a board with an empty cell and with a random source of
    doubles in [0,1) (the index computed from the rounded product), a
    spawn returns normally after exactly two calls of the source; the
    new board differs from the old one in exactly one cell, which was
    empty and now holds 2 or 4. *)
Theorem spawn_places_one_tile (G : Type) `{RandomSource G} (B : Board) (g : G) :
  has_empty B = true -> unit_range G ->
  exists B' r c v,
    spawnRandomTile B g = Normal (B', after_calls 2 g)
    /\ cell B r c = Some 0
    /\ (v = 2 \/ v = 4)
    /\ cell B' r c = Some v
    /\ forall r' c', (r', c') <> (r, c) -> cell B' r' c' = cell B r' c'.
Proof.
  intros He Hrng.
  destruct (spawn_step G B g He Hrng) as [r [c [v [Hc [Hv Hs]]]]].
  exists (set_cell B r c v), r, c, v.
  split; [exact Hs|]. split; [exact Hc|]. split; [exact Hv|]. split.
  - rewrite (cell_set_cell B r c 0) by exact Hc. now rewrite !Nat.eqb_refl.
  - intros r' c' Hne. rewrite (cell_set_cell B r c 0) by exact Hc.
    destruct (Nat.eqb_spec r' r) as [->|]; [|reflexivity].
    destruct (Nat.eqb_spec c' c) as [->|]; [|reflexivity].
    congruence.
Qed.

Lemma spawn_places_one_tile_witness :
  exists B' r c v,
    spawnRandomTile board_mixed (createSeededRng 7)
    = Normal (B', after_calls 2 (createSeededRng 7))
    /\ cell board_mixed r c = Some 0
    /\ (v = 2 \/ v = 4)
    /\ cell B' r c = Some v
    /\ forall r' c', (r', c') <> (r, c) -> cell B' r' c' = cell board_mixed r' c'.
Proof.
  apply (spawn_places_one_tile SeededRng board_mixed (createSeededRng 7)).
  - reflexivity.
  - exact seeded_unit_range.
Defined.

(** A sum over the cells of a board, and what one write changes in it. *)
Lemma sum_map_list_set {A} (f : A -> Z) (l : list A) (i : nat) (old x : A) :
  nth_error l i = Some old ->
  sum_line (map f (list_set l i x)) = sum_line (map f l) - f old + f x.
Proof.
  revert i. induction l as [|a l IH]; intros [|i] H; simpl in *; try discriminate.
  - injection H as ->. lia.
  - rewrite (IH i H). lia.
Qed.

Lemma cells_sum_set_cell (f : Z -> Z) (b : Board) (r c : nat) (old v : Z) :
  cell b r c = Some old ->
  sum_line (map (fun row => sum_line (map f row)) (set_cell b r c v))
  = sum_line (map (fun row => sum_line (map f row)) b) - f old + f v.
Proof.
  intros H. destruct (cell_in_range b r c old H) as [Hr Hc].
  unfold set_cell. unfold cell in H.
  rewrite (sum_map_list_set _ b r (nth r b []))
    by now apply nth_error_nth'.
  rewrite (sum_map_list_set f _ c old) by exact H. lia.
Qed.

Lemma sum_board_cells (b : Board) :
  sum_board b = sum_line (map (fun row => sum_line (map (fun v => v) row)) b).
Proof.
  unfold sum_board. f_equal. apply map_ext. intros row. now rewrite map_id.
Qed.

Lemma count_empty_cells (b : Board) :
  Z.of_nat (count_empty b)
  = sum_line (map (fun row =>
                     sum_line (map (fun v => if v =? 0 then 1 else 0) row)) b).
Proof.
  unfold count_empty, getEmptyCells. generalize 0%nat as r0.
  induction b as [|row rows IH]; intros r0; simpl; [reflexivity|].
  rewrite length_app, Nat2Z.inj_add, IH. f_equal.
  generalize 0%nat as c0.
  induction row as [|v row IHr]; intros c0; simpl; [reflexivity|].
  rewrite length_app, Nat2Z.inj_add, IHr. destruct (v =? 0); reflexivity.
Qed.

Lemma count_tiles_cells (b : Board) :
  Z.of_nat (count_tiles b)
  = sum_line (map (fun row =>
                     sum_line (map (fun v => if v =? 0 then 0 else 1) row)) b).
Proof.
  induction b as [|row rows IH]; simpl; [reflexivity|].
  rewrite Nat2Z.inj_add, IH. f_equal. unfold tiles.
  induction row as [|v row IHr]; simpl; [reflexivity|].
  destruct (v =? 0); simpl length; lia.
Qed.

Lemma spawn_step_counts (G : Type) `{RandomSource G} (b : Board) (g : G) :
  has_empty b = true -> unit_range G ->
  exists b',
    spawnRandomTile b g = Normal (b', after_calls 2 g)
    /\ S (count_empty b') = count_empty b
    /\ count_tiles b' = S (count_tiles b)
    /\ (sum_board b' = sum_board b + 2 \/ sum_board b' = sum_board b + 4).
Proof.
  intros He Hrng.
  destruct (spawn_step G b g He Hrng) as [r [c [v [Hc [Hv Hs]]]]].
  exists (set_cell b r c v). split; [exact Hs|].
  assert (Hnz : (v =? 0) = false) by (destruct Hv; subst; reflexivity).
  split; [|split].
  - apply Nat2Z.inj. rewrite Nat2Z.inj_succ, !count_empty_cells.
    rewrite (cells_sum_set_cell _ b r c 0 v Hc), Hnz. simpl. lia.
  - apply Nat2Z.inj. rewrite Nat2Z.inj_succ, !count_tiles_cells.
    rewrite (cells_sum_set_cell _ b r c 0 v Hc), Hnz. simpl. lia.
  - rewrite !sum_board_cells.
    rewrite (cells_sum_set_cell _ b r c 0 v Hc). destruct Hv; subst; lia.
Qed.

(** X3: a spawn that has room, with a random source of doubles in [0,1),
    fills one cell: the number of empty cells drops by one, the number of
    tiles rises by one, and the sum of the tile values rises by the new
    tile, 2 or 4. *)
Theorem spawn_counts (G : Type) `{RandomSource G} (B : Board) (g : G) :
  has_empty B = true -> unit_range G ->
  exists B' g',
    spawnRandomTile B g = Normal (B', g')
    /\ S (count_empty B') = count_empty B
    /\ count_tiles B' = S (count_tiles B)
    /\ (sum_board B' = sum_board B + 2 \/ sum_board B' = sum_board B + 4).
Proof.
  intros He Hrng.
  destruct (spawn_step_counts G B g He Hrng) as [B' HB'].
  now exists B', (after_calls 2 g).
Qed.

Lemma spawn_counts_witness :
  exists B' g',
    spawnRandomTile board_mixed (createSeededRng 7) = Normal (B', g')
    /\ S (count_empty B') = count_empty board_mixed
    /\ count_tiles B' = S (count_tiles board_mixed)
    /\ (sum_board B' = sum_board board_mixed + 2
        \/ sum_board B' = sum_board board_mixed + 4).
Proof.
  apply (spawn_counts SeededRng board_mixed (createSeededRng 7)).
  - reflexivity.
  - exact seeded_unit_range.
Defined.

(** X4: with an empty cell on the board (and fewer than [2^53] of them,
    as in every array), a spawn throws exactly when the first number drawn,
    a double, is outside [0,1): the index computed from it, with the
    product rounded as the source rounds it, is then negative or past the
    end of the list of empty cells. *)
Theorem spawn_throws_iff (G : Type) `{RandomSource G} (B : Board) (g : G) :
  has_empty B = true ->
  JS.is_double (fst (rng_call g)) ->
  Z.of_nat (count_empty B) < 2 ^ 53 ->
  spawnRandomTile B g = TypeError
  <-> ~ ((0 <= fst (rng_call g))%Q /\ (fst (rng_call g) < 1)%Q).
Proof.
  intros He Hd Hsmall. apply has_empty_count in He. unfold count_empty in *.
  unfold spawnRandomTile.
  destruct (Nat.eqb_spec (length (getEmptyCells B)) 0) as [E|_]; [lia|].
  unfold rand. destruct (rng_call g) as [x g1]. cbn [fst] in *.
  set (n := length (getEmptyCells B)) in *.
  destruct (Qlt_le_dec x 0) as [Hneg|Hpos].
  - (* a negative draw: a negative index *)
    pose proof (rand_negative x n Hd Hneg He) as Hi.
    unfold index.
    destruct (Z.ltb_spec (Qfloor (JS.mul x (inject_Z (Z.of_nat n)))) 0); [|lia].
    split; [|reflexivity]. intros _ [Hx0 _]. lra.
  - destruct (Qlt_le_dec x 1) as [Hlt|Hge].
    + (* in range: no exception *)
      destruct (index_in_range (getEmptyCells B)
                  (Qfloor (JS.mul x (inject_Z (Z.of_nat n)))))
        as [[r c] ->]; [now apply rand_range|].
      destruct (rng_call g1) as [y g2]. split; [discriminate|].
      intros Hout. exfalso. apply Hout. now split.
    + (* a draw of 1 or more: an index past the end *)
      pose proof (rand_past_end x n Hge He Hsmall) as Hi.
      unfold index.
      destruct (Z.ltb_spec (Qfloor (JS.mul x (inject_Z (Z.of_nat n)))) 0); [lia|].
      destruct (nth_error (getEmptyCells B) _) eqn:E.
      * assert (Z.to_nat (Qfloor (JS.mul x (inject_Z (Z.of_nat n)))) < n)%nat
          by (apply nth_error_Some; congruence).
        lia.
      * split; [|reflexivity]. intros _ [_ Hx1]. lra.
Qed.

Lemma spawn_throws_iff_witness :
  spawnRandomTile board_mixed {| const_value := 1 |} = TypeError
  <-> ~ ((0 <= fst (rng_call {| const_value := 1 |}))%Q
         /\ (fst (rng_call {| const_value := 1 |}) < 1)%Q).
Proof.
  apply (spawn_throws_iff ConstRng board_mixed).
  - reflexivity.
  - exists 1, 0. split; [reflexivity|]. split; [lia | reflexivity].
  - reflexivity.
Defined.

(** ** Initialization *)

Lemma spawnRandomTile_full (G : Type) `{RandomSource G} (b : Board) (g : G) :
  has_empty b = false -> spawnRandomTile b g = Normal (b, g).
Proof.
  intros Hfull. unfold spawnRandomTile. now rewrite (getEmptyCells_nil b Hfull).
Qed.

Lemma after_calls_add {G} `{RandomSource G} (n m : nat) (g : G) :
  after_calls (n + m) g = after_calls m (after_calls n g).
Proof. revert g. induction n as [|n IH]; intros g; simpl; auto. Qed.

Lemma sum_line_map_repeat {A} (f : A -> Z) (x : A) (n : nat) :
  sum_line (map f (repeat x n)) = Z.of_nat n * f x.
Proof. induction n as [|n IH]; simpl sum_line; simpl repeat; simpl map; [lia|].
  change (sum_line (f x :: map f (repeat x n))) with (f x + sum_line (map f (repeat x n))).
  rewrite IH. lia.
Qed.

Lemma createEmptyBoard_counts (size : nat) :
  count_empty (createEmptyBoard size) = (size * size)%nat
  /\ count_tiles (createEmptyBoard size) = 0%nat.
Proof.
  unfold createEmptyBoard. split; apply Nat2Z.inj.
  - rewrite count_empty_cells, !sum_line_map_repeat. simpl (0 =? 0). lia.
  - rewrite count_tiles_cells, !sum_line_map_repeat. simpl (0 =? 0). lia.
Qed.

Lemma initializeBoard_two_spawns (G : Type) `{RandomSource G} (size : nat) (g : G) :
  unit_range G ->
  exists B,
    initializeBoard size g
    = Normal (B, after_calls (2 * Nat.min 2 (size * size)) g)
    /\ count_tiles B = Nat.min 2 (size * size)
    /\ count_empty B = (size * size - 2)%nat.
Proof.
  intros Hrng. unfold initializeBoard.
  destruct (createEmptyBoard_counts size) as [E0 T0].
  destruct (has_empty (createEmptyBoard size)) eqn:He0.
  - destruct (spawn_step_counts G _ g He0 Hrng) as [b1 [-> [E1 [T1 _]]]].
    destruct (has_empty b1) eqn:He1.
    + destruct (spawn_step_counts G _ (after_calls 2 g) He1 Hrng)
        as [b2 [-> [E2 [T2 _]]]].
      exists b2. rewrite <- (after_calls_add 2 2).
      assert (Hm : Nat.min 2 (size * size) = 2%nat) by lia.
      rewrite Hm. split; [reflexivity|]. lia.
    + rewrite spawnRandomTile_full by exact He1. exists b1.
      assert (Hz : count_empty b1 = 0%nat).
      { destruct (count_empty b1) eqn:Ec; [reflexivity|].
        assert (has_empty b1 = true) by (apply has_empty_count; lia).
        congruence. }
      assert (Hm : Nat.min 2 (size * size) = 1%nat) by lia.
      rewrite Hm. split; [reflexivity|]. lia.
  - rewrite !spawnRandomTile_full by exact He0.
    exists (createEmptyBoard size).
    assert (Hz : (size * size = 0)%nat).
    { destruct (size * size)%nat eqn:Ec; [reflexivity|].
      assert (has_empty (createEmptyBoard size) = true)
        by (apply has_empty_count; lia).
      congruence. }
    rewrite Hz. split; [reflexivity|]. lia.
Qed.

(** X5: with a random source of doubles in [0,1), [initializeBoard size] returns
    normally for every size, with two tiles when the board has at least
    two cells.  On a board of one cell the second spawn finds no room and
    a single tile is placed; on a board of side 0 nothing is placed.  The
    source is called twice per tile placed. *)
Theorem initializeBoard_counts (G : Type) `{RandomSource G} (size : nat) (g : G) :
  unit_range G ->
  exists B,
    initializeBoard size g
    = Normal (B, after_calls (2 * Nat.min 2 (size * size)) g)
    /\ count_tiles B = Nat.min 2 (size * size)
    /\ count_empty B = (size * size - 2)%nat.
Proof. apply initializeBoard_two_spawns. Qed.

Lemma initializeBoard_counts_witness :
  exists B,
    initializeBoard 1 (createSeededRng 42)
    = Normal (B, after_calls (2 * Nat.min 2 (1 * 1)) (createSeededRng 42))
    /\ count_tiles B = Nat.min 2 (1 * 1)
    /\ count_empty B = (1 * 1 - 2)%nat.
Proof.
  apply (initializeBoard_counts SeededRng 1 (createSeededRng 42)).
  exact seeded_unit_range.
Defined.

(** ** Seeded games *)

(** X6: every call of the seeded generator, from every seed and however
    many calls were made before (also after the counter has left the range
    of exact doubles), returns [k / 2^32] for an integer [0 <= k < 2^32],
    hence a value in [0,1); so a seeded [initializeBoard] never throws. *)
Theorem seeded_rng_total (seed : Z) (n size : nat) :
  (exists k, 0 <= k < 4294967296
             /\ nth_call n (createSeededRng seed) = Qmake k 4294967296)
  /\ (0 <= nth_call n (createSeededRng seed))%Q
  /\ (nth_call n (createSeededRng seed) < 1)%Q
  /\ exists B g', initializeBoard size (createSeededRng seed) = Normal (B, g').
Proof.
  split; [|split; [|split]].
  - unfold nth_call.
    exists (output_bits
              (scramble (JS.add (t (after_calls n (createSeededRng seed)))
                           0x6d2b79f5))).
    split; [apply output_bits_range | reflexivity].
  - apply seeded_range.
  - apply seeded_range.
  - destruct (initializeBoard_two_spawns SeededRng size (createSeededRng seed)
                seeded_unit_range) as [B [HB _]].
    eauto.
Qed.

(** ** Cells under the transforms of [move] *)

Lemma some_cell_iff (p : Z -> bool) (b : Board) :
  some_cell p b = true <-> exists row v, In row b /\ In v row /\ p v = true.
Proof.
  unfold some_cell. rewrite existsb_exists. split.
  - intros [row [Hr H]]. apply existsb_exists in H. destruct H as [v [Hv Hp]].
    eauto.
  - intros [row [v [Hr [Hv Hp]]]]. exists row. split; [exact Hr|].
    apply existsb_exists. eauto.
Qed.

Lemma some_cell_grid (p : Z -> bool) (size : nat) (f : nat -> nat -> Z) :
  some_cell p (grid size f) = true
  <-> exists i j, (i < size)%nat /\ (j < size)%nat /\ p (f i j) = true.
Proof.
  rewrite some_cell_iff. unfold grid. split.
  - intros [row [v [Hr [Hv Hp]]]].
    apply in_map_iff in Hr. destruct Hr as [i [<- Hi]].
    apply in_map_iff in Hv. destruct Hv as [j [<- Hj]].
    apply in_seq in Hi. apply in_seq in Hj. exists i, j. repeat split; (lia || auto).
  - intros [i [j [Hi [Hj Hp]]]].
    exists (map (fun j => f i j) (seq 0 size)), (f i j).
    split; [|split; [|exact Hp]].
    + apply (in_map (fun i => map (fun j => f i j) (seq 0 size))), in_seq. lia.
    + apply (in_map (fun j => f i j)), in_seq. lia.
Qed.

Lemma some_cell_transpose (p : Z -> bool) (size : nat) (b : Board) :
  is_grid size b -> some_cell p (transpose b) = true <-> some_cell p b = true.
Proof.
  intros Hg. pose proof Hg as [Hl _].
  rewrite (board_as_grid size b Hg) at 2. rewrite transpose_grid, Hl.
  rewrite !some_cell_grid. split; intros [i [j [Hi [Hj Hp]]]]; exists j, i; auto.
Qed.

Lemma some_cell_reverseRows (p : Z -> bool) (b : Board) :
  some_cell p (reverseRows b) = true <-> some_cell p b = true.
Proof.
  rewrite !some_cell_iff. unfold reverseRows. split.
  - intros [row [v [Hr [Hv Hp]]]]. apply in_map_iff in Hr.
    destruct Hr as [row' [<- Hr']]. apply in_rev in Hv. eauto.
  - intros [row [v [Hr [Hv Hp]]]]. exists (rev row), v.
    split; [now apply in_map|]. split; [now apply in_rev in Hv | exact Hp].
Qed.

Lemma some_cell_travel_lines (p : Z -> bool) (b : Board) (d : Direction) :
  square b -> some_cell p (travel_lines d b) = true <-> some_cell p b = true.
Proof.
  intros Hsq. apply square_is_grid in Hsq. destruct d; simpl.
  - tauto.
  - apply some_cell_reverseRows.
  - now apply (some_cell_transpose p (length b)).
  - rewrite some_cell_reverseRows. now apply (some_cell_transpose p (length b)).
Qed.

(** ** The shape of a moved board *)

Lemma slide_compacted (line : list Z) : compacted (slide line).
Proof.
  exists (merged_of line), (length line - length (merged_of line))%nat.
  split; [apply slide_eq | apply merged_of_nonzero].
Qed.

(** X7: after a move every line of travel is compacted: its tiles come
    first, without gaps, and its empty cells last (for a move to the left
    no empty cell lies left of a tile, and likewise for the other
    directions). *)
Theorem move_compacts (B : Board) (d : Direction) :
  square B -> Forall compacted (travel_lines d (board (move B d))).
Proof.
  intros Hsq. rewrite (travel_lines_move B d Hsq).
  apply Forall_map, Forall_forall. intros line _. apply slide_compacted.
Qed.

Lemma move_compacts_witness :
  Forall compacted (travel_lines Down (board (move board_mixed Down))).
Proof. apply (move_compacts board_mixed Down). reflexivity. Defined.

Lemma filter_full {A} (p : A -> bool) (l : list A) :
  length (filter p l) = length l -> filter p l = l.
Proof.
  induction l as [|a l IH]; simpl; [reflexivity|].
  pose proof (filter_length_le p l) as Hle.
  destruct (p a); simpl; intros H; [f_equal; apply IH; lia | lia].
Qed.

(** A line that moved ends in an empty cell. *)
Lemma slide_moved_zero (line : list Z) : slide line <> line -> In 0 (slide line).
Proof.
  intros Hne. rewrite slide_eq.
  pose proof (merged_of_length line) as Hle.
  destruct (Nat.eq_dec (length (merged_of line)) (length line)) as [E|E].
  - exfalso. apply Hne. rewrite slide_eq, E, Nat.sub_diag, app_nil_r.
    unfold merged_of in *.
    pose proof (mergePairs_length (tiles line)) as H1.
    pose proof (tiles_length line) as H2.
    assert (Et : tiles line = line).
    { unfold tiles in *. apply filter_full. lia. }
    rewrite Et in *. now apply mergePairs_fixed.
  - apply in_or_app. right.
    destruct (length line - length (merged_of line))%nat eqn:Ek; [lia|].
    now left.
Qed.

Lemma move_leaves_room (b : Board) (d : Direction) :
  square b -> moved (move b d) = true -> has_empty (board (move b d)) = true.
Proof.
  intros Hsq Hm.
  apply (some_cell_travel_lines (fun v => v =? 0) _ d (move_square b d Hsq)).
  rewrite (travel_lines_move b d Hsq).
  rewrite move_eq in Hm. simpl in Hm. apply existsb_exists in Hm.
  destruct Hm as [line [Hin Hl]]. apply line_moved_true in Hl.
  apply some_cell_iff. exists (slide line), 0.
  split; [now apply in_map|]. split; [now apply slide_moved_zero | reflexivity].
Qed.

(** X8: a move that changes the board leaves an empty cell on it, so the
    spawn that follows a successful move always has room. *)
Theorem moved_leaves_room (B : Board) (d : Direction) :
  square B -> moved (move B d) = true -> has_empty (board (move B d)) = true.
Proof. apply move_leaves_room. Qed.

Lemma moved_leaves_room_witness :
  has_empty (board (move board_merge_full Left)) = true.
Proof. apply (moved_leaves_room board_merge_full Left); reflexivity. Defined.

(** ** Winning tiles stay *)

Lemma mergePairs_keeps_large (bound : Z) (l : list Z) :
  0 < bound -> (exists v, In v l /\ bound <= v) ->
  exists v, In v (fst (mergePairs l)) /\ bound <= v.
Proof.
  intros Hb. induction l as [| a | a b l IH1 IH2] using list_ind2;
    intros [v [Hin Hv]]; [contradiction | simpl in *; eauto |].
  rewrite mergePairs_cons2. destruct (Z.eqb_spec a b) as [->|Hne]; simpl.
  - destruct Hin as [E|[E|Hin]].
    + exists (b + b). split; [now left | lia].
    + exists (b + b). split; [now left | lia].
    + destruct IH1 as [w [Hw Hwb]]; [eauto|]. exists w. auto.
  - destruct Hin as [E|Hin].
    + exists a. split; [now left | lia].
    + destruct IH2 as [w [Hw Hwb]]; [eauto|]. exists w. auto.
Qed.

Lemma slide_keeps_large (bound : Z) (line : list Z) :
  0 < bound -> existsb (fun v => bound <=? v) line = true ->
  existsb (fun v => bound <=? v) (slide line) = true.
Proof.
  intros Hb H. apply existsb_exists in H. destruct H as [v [Hin Hv]].
  apply Z.leb_le in Hv.
  destruct (mergePairs_keeps_large bound (tiles line) Hb) as [w [Hw Hwb]].
  { exists v. split; [|exact Hv]. apply filter_In. split; [exact Hin|].
    apply negb_true_iff, Z.eqb_neq. lia. }
  apply existsb_exists. exists w. split; [|now apply Z.leb_le].
  rewrite slide_eq. apply in_or_app. now left.
Qed.

(** X9: a winning board stays winning: if some cell holds at least 2048,
    then so does some cell after a move in any direction. *)
Theorem has2048_after_move (B : Board) (d : Direction) :
  square B -> has2048 B = true -> has2048 (board (move B d)) = true.
Proof.
  intros Hsq Hw. change has2048 with (some_cell (fun v => 2048 <=? v)) in *.
  apply (some_cell_travel_lines _ _ d (move_square B d Hsq)).
  rewrite (travel_lines_move B d Hsq).
  apply (some_cell_travel_lines _ _ d Hsq) in Hw.
  apply existsb_exists in Hw. destruct Hw as [line [Hin Hl]].
  apply existsb_exists. exists (slide line).
  split; [now apply in_map | now apply slide_keeps_large].
Qed.

Lemma has2048_after_move_witness :
  has2048 (board (move board_won Up)) = true.
Proof. apply (has2048_after_move board_won Up); reflexivity. Defined.

(** ** Mirror images *)

Lemma rev_is_grid (size : nat) (b : Board) : is_grid size b -> is_grid size (rev b).
Proof.
  intros [Hl Hr]. split; [now rewrite length_rev|].
  apply Forall_rev. exact Hr.
Qed.

(** Transposing the board turned upside down mirrors the rows of the
    transposed board. *)
Lemma transpose_rev (size : nat) (b : Board) :
  is_grid size b -> transpose (rev b) = reverseRows (transpose b).
Proof.
  intros Hg. pose proof Hg as [Hl _].
  pose proof (rev_is_grid size b Hg) as Hgr.
  assert (Ht : is_grid size (transpose b)) by now apply transpose_is_grid_of.
  apply (grid_ext size).
  - apply transpose_is_grid_of. now rewrite length_rev.
  - now apply reverseRows_grid.
  - intros i j Hi Hj.
    rewrite read_transpose by (rewrite length_rev; lia).
    rewrite !read_nth. unfold reverseRows.
    rewrite rev_nth by lia.
    change (@nil Z) with (rev (@nil Z)) at 2.
    rewrite (map_nth (@rev Z)).
    rewrite rev_nth by (rewrite (is_grid_row size _ i Ht Hi); exact Hj).
    rewrite (is_grid_row size _ i Ht Hi), Hl.
    rewrite <- !read_nth. symmetry. apply read_transpose; lia.
Qed.

Lemma transpose_reverseRows (size : nat) (x : Board) :
  is_grid size x -> transpose (reverseRows x) = rev (transpose x).
Proof.
  intros Hg. pose proof Hg as [Hl _].
  assert (Ht : is_grid size (transpose x)) by now apply transpose_is_grid_of.
  pose proof (transpose_rev size (transpose x) Ht) as E.
  rewrite (transpose_involutive size x Hg) in E. rewrite <- E.
  apply (transpose_involutive size). now apply rev_is_grid.
Qed.

(** X10: on a square board a move down is a move up on the board turned
    upside down (its rows in reverse order), turned back; gain and moved
    flag agree. *)
Theorem down_is_up_flipped (B : Board) :
  square B ->
  move B Down
  = {| board := rev (board (move (rev B) Up));
       gained := gained (move (rev B) Up);
       moved := moved (move (rev B) Up) |}.
Proof.
  intros Hsq. apply square_is_grid in Hsq. rewrite !move_eq. simpl.
  rewrite (transpose_rev (length B) B Hsq). f_equal.
  apply (transpose_reverseRows (length B)).
  apply map_slide_grid, reverseRows_grid. now apply transpose_is_grid_of.
Qed.

Lemma down_is_up_flipped_witness :
  move board_mixed Down
  = {| board := rev (board (move (rev board_mixed) Up));
       gained := gained (move (rev board_mixed) Up);
       moved := moved (move (rev board_mixed) Up) |}.
Proof. apply (down_is_up_flipped board_mixed). reflexivity. Defined.

(** ** Gain and the number of tiles *)

Lemma mergePairs_gain (l : list Z) :
  Forall (fun v => 0 < v) l ->
  0 <= snd (mergePairs l)
  /\ (snd (mergePairs l) = 0 -> length (fst (mergePairs l)) = length l).
Proof.
  induction l as [| a | a b l IH1 IH2] using list_ind2; intros H;
    [simpl; split; [lia | auto] | simpl; split; [lia | auto] |].
  inversion H as [|? ? Ha H']; subst. inversion H' as [|? ? Hb H'']; subst.
  rewrite mergePairs_cons2. destruct (a =? b); simpl.
  - destruct (IH1 H'') as [G _]. split; lia.
  - destruct (IH2 H') as [G E]. split; [exact G|]. intros E0.
    specialize (E E0). simpl in E. lia.
Qed.

Lemma tiles_positive (line : list Z) :
  forallb (fun v => 0 <=? v) line = true -> Forall (fun v => 0 < v) (tiles line).
Proof.
  intros H. rewrite forallb_forall in H. apply Forall_forall. intros v Hv.
  apply filter_In in Hv. destruct Hv as [Hin Hnz].
  specialize (H v Hin). apply Z.leb_le in H.
  apply negb_true_iff, Z.eqb_neq in Hnz. lia.
Qed.

Lemma tiles_slide (line : list Z) : tiles (slide line) = merged_of line.
Proof.
  rewrite slide_eq, tiles_app, tiles_repeat0, app_nil_r.
  apply tiles_id, merged_of_nonzero.
Qed.

(** Over a list of lines with no negative cell. *)
Lemma lines_gain_and_tiles (lines : Board) :
  is_nonneg lines = true ->
  0 <= sum_line (map gain_of lines)
  /\ (count_tiles (map slide lines) <= count_tiles lines)%nat
  /\ (sum_line (map gain_of lines) = 0
      <-> count_tiles (map slide lines) = count_tiles lines).
Proof.
  induction lines as [|line lines IH]; simpl; intros H.
  - split; [lia|]. split; [lia|]. tauto.
  - apply andb_true_iff in H. destruct H as [Hl Hr].
    destruct (IH Hr) as [G [C E]].
    destruct (mergePairs_gain (tiles line) (tiles_positive line Hl)) as [Gl El].
    pose proof (mergePairs_length (tiles line)) as Ll.
    pose proof (mergePairs_fixed (tiles line)) as Fl.
    rewrite tiles_slide. unfold gain_of, merged_of in *.
    split; [lia|]. split; [lia|]. split.
    + intros S0. assert (S1 : snd (mergePairs (tiles line)) = 0) by lia.
      assert (S2 : sum_line (map (fun l => snd (mergePairs (tiles l))) lines) = 0)
        by lia.
      apply El in S1. apply E in S2. lia.
    + intros Ec.
      assert (E1 : length (fst (mergePairs (tiles line))) = length (tiles line))
        by lia.
      assert (E2 : count_tiles (map slide lines) = count_tiles lines) by lia.
      apply Fl in E1. apply E in E2. lia.
Qed.

Lemma cells_sum_grid (f : Z -> Z) (size : nat) (g : nat -> nat -> Z) :
  sum_line (map (fun row => sum_line (map f row)) (grid size g))
  = sum_line (map (fun i => sum_line (map (fun j => f (g i j)) (seq 0 size)))
                (seq 0 size)).
Proof.
  unfold grid. rewrite map_map. f_equal. apply map_ext. intros i.
  now rewrite map_map.
Qed.

Lemma cells_sum_travel_lines (f : Z -> Z) (b : Board) (d : Direction) :
  square b ->
  sum_line (map (fun row => sum_line (map f row)) (travel_lines d b))
  = sum_line (map (fun row => sum_line (map f row)) b).
Proof.
  intros Hsq. apply square_is_grid in Hsq.
  assert (Hrev : forall x : Board,
             sum_line (map (fun row => sum_line (map f row)) (reverseRows x))
             = sum_line (map (fun row => sum_line (map f row)) x)).
  { intros x. unfold reverseRows. rewrite map_map. f_equal.
    apply map_ext. intros row. now rewrite map_rev, sum_line_rev. }
  assert (Htr : sum_line (map (fun row => sum_line (map f row)) (transpose b))
                = sum_line (map (fun row => sum_line (map f row)) b)).
  { rewrite (board_as_grid _ b Hsq) at 2. rewrite transpose_grid.
    rewrite !cells_sum_grid.
    apply (sum_line_exchange (fun c r => f (read b r c))). }
  destruct d; simpl; rewrite ?Hrev; auto.
Qed.

Lemma count_tiles_travel_lines (b : Board) (d : Direction) :
  square b -> count_tiles (travel_lines d b) = count_tiles b.
Proof.
  intros Hsq. apply Nat2Z.inj. rewrite !count_tiles_cells.
  now apply cells_sum_travel_lines.
Qed.

Lemma is_nonneg_some_cell (b : Board) :
  is_nonneg b = negb (some_cell (fun v => negb (0 <=? v)) b).
Proof.
  unfold is_nonneg, some_cell.
  induction b as [|row rows IH]; simpl; [reflexivity|].
  rewrite IH, negb_orb. f_equal.
  induction row as [|v row IHr]; simpl; [reflexivity|].
  rewrite IHr, negb_orb, negb_involutive. reflexivity.
Qed.

Lemma is_nonneg_travel_lines (b : Board) (d : Direction) :
  square b -> is_nonneg b = true -> is_nonneg (travel_lines d b) = true.
Proof.
  intros Hsq. rewrite !is_nonneg_some_cell, !negb_true_iff.
  intros H. destruct (some_cell _ (travel_lines d b)) eqn:E; [|reflexivity].
  apply (some_cell_travel_lines _ b d Hsq) in E. congruence.
Qed.

(** X11: on a square board without negative cells the gain of a move is
    never negative, the move never adds a tile, and the gain is 0 exactly
    when the number of tiles is unchanged (nothing merged). *)
Theorem gain_counts_merges (B : Board) (d : Direction) :
  square B -> is_nonneg B = true ->
  0 <= gained (move B d)
  /\ (count_tiles (board (move B d)) <= count_tiles B)%nat
  /\ (gained (move B d) = 0 <-> count_tiles (board (move B d)) = count_tiles B).
Proof.
  intros Hsq Hnn.
  rewrite <- (count_tiles_travel_lines _ d (move_square B d Hsq)).
  rewrite (travel_lines_move B d Hsq).
  rewrite <- (count_tiles_travel_lines B d Hsq).
  rewrite move_eq. simpl.
  apply lines_gain_and_tiles. now apply is_nonneg_travel_lines.
Qed.

Lemma gain_counts_merges_witness :
  0 <= gained (move board_mixed Up)
  /\ (count_tiles (board (move board_mixed Up)) <= count_tiles board_mixed)%nat
  /\ (gained (move board_mixed Up) = 0
      <-> count_tiles (board (move board_mixed Up)) = count_tiles board_mixed).
Proof. apply (gain_counts_merges board_mixed Up); reflexivity. Defined.

(** ** [transpose] and [arraysEqual] *)

(** X12: on a square board [transpose] gives a square board of the same
    side whose cell (c, r) is the board's cell (r, c), and transposing
    twice gives the board back. *)
Theorem transpose_square (B : Board) :
  square B ->
  square (transpose B)
  /\ length (transpose B) = length B
  /\ (forall r c, (r < length B)%nat -> (c < length B)%nat ->
                  cell (transpose B) c r = cell B r c)
  /\ transpose (transpose B) = B.
Proof.
  intros Hsq. pose proof Hsq as Hg. apply square_is_grid in Hg.
  pose proof (transpose_is_grid B) as Ht.
  split; [now apply (is_grid_square (length B))|].
  split; [apply transpose_length|]. split.
  - intros r c Hr Hc.
    rewrite (cell_read (length B) (transpose B)) by assumption.
    rewrite (cell_read (length B) B) by assumption.
    f_equal. now apply read_transpose.
  - now apply (transpose_involutive (length B)).
Qed.

Lemma transpose_square_witness :
  square (transpose board_mixed)
  /\ length (transpose board_mixed) = length board_mixed
  /\ (forall r c, (r < length board_mixed)%nat -> (c < length board_mixed)%nat ->
                  cell (transpose board_mixed) c r = cell board_mixed r c)
  /\ transpose (transpose board_mixed) = board_mixed.
Proof. apply (transpose_square board_mixed). reflexivity. Defined.

(** X13: [arraysEqual] decides equality of two lines: it is true exactly
    when they have the same length and the same cells in the same
    order. *)
Theorem arraysEqual_iff (a b : list Z) :
  arraysEqual a b = true
  <-> length a = length b /\ forall i, nth_error a i = nth_error b i.
Proof.
  rewrite arraysEqual_spec. split.
  - intros ->. auto.
  - intros [_ H]. now apply nth_error_ext.
Qed.

(** ** The empty board *)

Lemma read_createEmptyBoard (size i j : nat) : read (createEmptyBoard size) i j = 0.
Proof.
  unfold read, cell, createEmptyBoard.
  destruct (nth_error _ j) as [v|] eqn:E; [|reflexivity].
  apply nth_error_In in E.
  destruct (Nat.lt_ge_cases i (length (repeat (repeat 0 size) size))) as [Hi|Hi].
  - pose proof (nth_In _ (@nil Z) Hi) as Hrow. apply repeat_spec in Hrow.
    rewrite Hrow in E. now apply repeat_spec in E.
  - rewrite nth_overflow in E by exact Hi. contradiction.
Qed.

Lemma slide_zeros (n : nat) : slide (repeat 0 n) = repeat 0 n.
Proof.
  rewrite slide_eq. unfold merged_of. rewrite tiles_repeat0. simpl.
  now rewrite Nat.sub_0_r, repeat_length.
Qed.

Lemma travel_lines_createEmptyBoard (size : nat) (d : Direction) :
  travel_lines d (createEmptyBoard size) = createEmptyBoard size.
Proof.
  assert (Hrev : reverseRows (createEmptyBoard size) = createEmptyBoard size).
  { unfold reverseRows, createEmptyBoard. rewrite map_repeat.
    f_equal. apply rev_repeat. }
  assert (Htr : transpose (createEmptyBoard size) = createEmptyBoard size).
  { assert (Hl : length (createEmptyBoard size) = size) by apply repeat_length.
    apply (grid_ext size).
    - now apply transpose_is_grid_of.
    - apply empty_is_grid.
    - intros i j Hi Hj. rewrite read_transpose by (rewrite Hl; assumption).
      now rewrite !read_createEmptyBoard. }
  destruct d; simpl; rewrite ?Htr, ?Hrev; reflexivity.
Qed.

(** X14: the all-zero board of any side: no direction moves it (the
    move returns the same board with gain 0), although [hasMoves] is true
    on it as soon as it has a cell; it has [size * size] empty cells and
    no winning tile. *)
Theorem createEmptyBoard_inert (size : nat) (d : Direction) :
  move (createEmptyBoard size) d
  = {| board := createEmptyBoard size; gained := 0; moved := false |}
  /\ hasMoves (createEmptyBoard size) = (0 <? size)%nat
  /\ has2048 (createEmptyBoard size) = false
  /\ count_empty (createEmptyBoard size) = (size * size)%nat.
Proof.
  assert (Hsq : square (createEmptyBoard size)).
  { apply (is_grid_square size), empty_is_grid. }
  assert (Hfix : forall line, In line (createEmptyBoard size) -> slide line = line).
  { intros line Hin. apply repeat_spec in Hin. subst. apply slide_zeros. }
  split; [|split; [|split]].
  - rewrite move_eq, travel_lines_createEmptyBoard.
    assert (Hm : existsb line_moved (createEmptyBoard size) = false).
    { destruct (existsb _ _) eqn:E; [|reflexivity].
      apply existsb_exists in E. destruct E as [line [Hin Hm]].
      apply line_moved_true in Hm. exfalso. now apply Hm, Hfix. }
    destruct (blocked_lines _ Hm) as [-> ->]. rewrite Hm. f_equal.
    rewrite <- (travel_lines_createEmptyBoard size d) at 1.
    now apply from_travel_lines_travel.
  - destruct size as [|size]; [reflexivity|].
    apply hasMoves_empty, has_empty_count.
    destruct (createEmptyBoard_counts (S size)) as [-> _]. simpl. lia.
  - destruct (has2048 _) eqn:E; [|reflexivity].
    unfold has2048 in E. apply existsb_exists in E. destruct E as [row [Hr H]].
    apply existsb_exists in H. destruct H as [v [Hv Hb]].
    apply repeat_spec in Hr. subst row. apply repeat_spec in Hv. subst v.
    discriminate.
  - apply createEmptyBoard_counts.
Qed.

(** * The play session *)

(** A spawn that returned, on a board with room. *)
Lemma spawn_inv (G : Type) `{RandomSource G} (b b' : Board) (g g' : G) :
  has_empty b = true -> spawnRandomTile b g = Normal (b', g') ->
  exists r c v,
    cell b r c = Some 0 /\ (v = 2 \/ v = 4)
    /\ b' = set_cell b r c v /\ g' = after_calls 2 g.
Proof.
  intros He. apply has_empty_count in He. unfold count_empty in He.
  unfold spawnRandomTile.
  destruct (Nat.eqb_spec (length (getEmptyCells b)) 0) as [E|_]; [lia|].
  unfold rand. cbn [after_calls].
  destruct (rng_call g) as [x g1]. cbn [snd].
  destruct (index (getEmptyCells b) _) as [[r c]|] eqn:Hi; [|discriminate].
  destruct (rng_call g1) as [y g2]. cbn [snd].
  rewrite cloneBoard_id. intros E. injection E as <- <-.
  exists r, c, (if Qlt_bool y double_0_9 then 2 else 4).
  split; [|split; [|split; reflexivity]].
  - apply getEmptyCells_In. unfold index in Hi.
    destruct (_ <? 0); [discriminate|]. eapply nth_error_In; eauto.
  - destruct (Qlt_bool y double_0_9); auto.
Qed.

Lemma applyMove_idle {G} `{RandomSource G} (dir : Direction) (s : UI.state G) :
  acts dir s = false -> applyMove dir s = Normal s.
Proof.
  unfold acts, applyMove. intros Ha.
  destruct (not_playing (UI.status s)); [reflexivity|].
  destruct (UI.isRunning s); [|reflexivity]. simpl in *.
  now rewrite Ha.
Qed.

Lemma applyMove_acts_eq {G} `{RandomSource G} (dir : Direction) (s : UI.state G) :
  acts dir s = true ->
  applyMove dir s
  = match spawnRandomTile (board (move (UI.board s) dir)) (UI.rngRef s) with
    | TypeError => TypeError
    | Normal (next, rng) =>
        Normal {| UI.board := next;
                  UI.score := UI.score s + gained (move (UI.board s) dir);
                  UI.status := if has2048 next then Won
                               else if hasMoves next then Playing else Over;
                  UI.moves := UI.moves s + 1;
                  UI.isRunning := UI.isRunning s;
                  UI.undoStack :=
                    {| Undo.board := UI.board s; Undo.score := UI.score s |}
                    :: firstn 9 (UI.undoStack s);
                  UI.rngRef := rng |}
    end.
Proof.
  unfold acts, applyMove. intros Ha.
  apply andb_true_iff in Ha. destruct Ha as [Ha Hm].
  apply andb_true_iff in Ha. destruct Ha as [Hp Hr].
  apply negb_true_iff in Hp. rewrite Hp, Hr. cbn [orb negb]. cbv zeta.
  rewrite Hm. cbn [negb]. now rewrite map_id.
Qed.

Lemma applyMove_acts {G} `{RandomSource G} (dir : Direction) (s s' : UI.state G) :
  acts dir s = true -> applyMove dir s = Normal s' ->
  exists next rng,
    spawnRandomTile (board (move (UI.board s) dir)) (UI.rngRef s)
    = Normal (next, rng)
    /\ s' = {| UI.board := next;
               UI.score := UI.score s + gained (move (UI.board s) dir);
               UI.status := if has2048 next then Won
                            else if hasMoves next then Playing else Over;
               UI.moves := UI.moves s + 1;
               UI.isRunning := UI.isRunning s;
               UI.undoStack :=
                 {| Undo.board := UI.board s; Undo.score := UI.score s |}
                 :: firstn 9 (UI.undoStack s);
               UI.rngRef := rng |}.
Proof.
  intros Ha. rewrite (applyMove_acts_eq dir s Ha).
  destruct (spawnRandomTile _ _) as [[next rng]|]; [|discriminate].
  intros E. injection E as <-. now exists next, rng.
Qed.

Lemma forallb_firstn {A} (p : A -> bool) (n : nat) (l : list A) :
  forallb p l = true -> forallb p (firstn n l) = true.
Proof.
  revert n. induction l as [|a l IH]; intros [|n] H; simpl in *; auto.
  apply andb_true_iff in H. destruct H as [-> H]. simpl. now apply IH.
Qed.

(** X15: a session whose boards are well formed stays so: with a random
    source of doubles in [0,1), [applyMove] returns normally, the board and every
    undo entry stay well-formed boards of the same side, and the undo
    stack never holds more than 10 entries; [undo] keeps all this too. *)
Theorem session_invariant (G : Type) `{RandomSource G} (N : nat)
    (dir : Direction) (s : UI.state G) :
  session_ok N s = true -> unit_range G ->
  (exists s', applyMove dir s = Normal s' /\ session_ok N s' = true)
  /\ session_ok N (undo s) = true.
Proof.
  intros Hok Hrng. unfold session_ok in Hok.
  apply andb_true_iff in Hok. destruct Hok as [Hok Hlen].
  apply andb_true_iff in Hok. destruct Hok as [Hb Hu]. split.
  - destruct (acts dir s) eqn:Ha.
    + destruct (spawn_wellFormed G N (board (move (UI.board s) dir)) (UI.rngRef s)
                  Hrng (move_wellFormed N _ dir Hb)) as [next [rng [Hs Hn]]].
      rewrite (applyMove_acts_eq dir s Ha), Hs.
      eexists. split; [reflexivity|]. unfold session_ok.
      cbn [UI.board UI.undoStack forallb Undo.board length].
      rewrite Hn, Hb, (forallb_firstn _ 9 _ Hu). cbn [andb].
      apply Nat.leb_le. pose proof (firstn_le_length 9 (UI.undoStack s)). lia.
    + exists s. split; [now apply applyMove_idle|].
      unfold session_ok. now rewrite Hb, Hu, Hlen.
  - unfold undo. destruct (UI.undoStack s) as [|e rest] eqn:Eu.
    + unfold session_ok. now rewrite Hb, Eu.
    + unfold session_ok. simpl in *.
      apply andb_true_iff in Hu. destruct Hu as [-> ->]. simpl.
      apply Nat.leb_le. apply Nat.leb_le in Hlen. lia.
Qed.

Lemma session_invariant_witness :
  (exists s', applyMove Left session_mixed = Normal s' /\ session_ok 4 s' = true)
  /\ session_ok 4 (undo session_mixed) = true.
Proof.
  apply (session_invariant SeededRng 4 Left session_mixed).
  - reflexivity.
  - exact seeded_unit_range.
Defined.

(** X16: undoing a move that was carried out restores the board and the
    score of before the move and sets the status to playing; the undo
    stack is back to its 9 most recent entries; the move counter keeps
    its increment and the random source is not rewound. *)
Theorem undo_after_move (G : Type) `{RandomSource G} (dir : Direction)
    (s s' : UI.state G) :
  acts dir s = true -> applyMove dir s = Normal s' ->
  UI.board (undo s') = UI.board s
  /\ UI.score (undo s') = UI.score s
  /\ UI.status (undo s') = Playing
  /\ UI.undoStack (undo s') = firstn 9 (UI.undoStack s)
  /\ UI.moves (undo s') = UI.moves s + 1
  /\ UI.rngRef (undo s') = UI.rngRef s'.
Proof.
  intros Ha Hs. destruct (applyMove_acts dir s s' Ha Hs) as [next [rng [_ ->]]].
  unfold undo. simpl. repeat split.
Qed.

Lemma undo_after_move_witness :
  UI.board (undo session_mixed_left) = UI.board session_mixed
  /\ UI.score (undo session_mixed_left) = UI.score session_mixed
  /\ UI.status (undo session_mixed_left) = Playing
  /\ UI.undoStack (undo session_mixed_left) = firstn 9 (UI.undoStack session_mixed)
  /\ UI.moves (undo session_mixed_left) = UI.moves session_mixed + 1
  /\ UI.rngRef (undo session_mixed_left) = UI.rngRef session_mixed_left.
Proof.
  apply (undo_after_move SeededRng Left session_mixed session_mixed_left);
    reflexivity.
Defined.

(** On a square board that holds a tile, [hasMoves] tells whether some
    direction moves the board. *)
Lemma hasMoves_true_moves (b : Board) :
  square b -> has_tile b = true -> hasMoves b = true ->
  exists d, moved (move b d) = true.
Proof.
  intros Hsq Ht Hm. pose proof Hsq as Hg. apply square_is_grid in Hg.
  destruct (has_empty b) eqn:He.
  - destruct (moved (move b Left)) eqn:ML; [eauto|].
    destruct (moved (move b Right)) eqn:MR; [eauto|].
    destruct (moved (move b Up)) eqn:MU; [eauto|].
    destruct (moved (move b Down)) eqn:MD; [eauto|].
    assert (Hno : has_tile b = false).
    { apply (blocked_with_empty_cell b Hsq He). now intros []. }
    congruence.
  - apply (hasMoves_pairs _ _ Hg He) in Hm.
    destruct Hm as [r [c [Hr [Hc Hpair]]]].
    destruct (pair_moves b r c Hsq He Hr Hc Hpair); eauto.
Qed.

Lemma hasMoves_false_blocked (b : Board) (d : Direction) :
  square b -> hasMoves b = false -> moved (move b d) = false.
Proof.
  intros Hsq Hm. apply (moved_false_iff b d Hsq). intros i Hi.
  now apply stuck_line_fixed.
Qed.

Lemma set_cell_has_tile (b : Board) (r c : nat) (v : Z) :
  cell b r c = Some 0 -> v <> 0 -> has_tile (set_cell b r c v) = true.
Proof.
  intros Hc Hv.
  assert (H : cell (set_cell b r c v) r c = Some v).
  { rewrite (cell_set_cell b r c 0) by exact Hc. now rewrite !Nat.eqb_refl. }
  destruct (proj2 (cell_In (set_cell b r c v) v)) as [row [Hr Hin]]; [eauto|].
  unfold has_tile. apply existsb_exists. exists row. split; [exact Hr|].
  apply existsb_exists. exists v. split; [exact Hin|].
  now apply negb_true_iff, Z.eqb_neq.
Qed.

(** The board after a move that was carried out: square, with the new
    tile on it. *)
Lemma turn_board (G : Type) `{RandomSource G} (b next : Board) (d : Direction)
    (g g' : G) :
  square b -> moved (move b d) = true ->
  spawnRandomTile (board (move b d)) g = Normal (next, g') ->
  square next /\ has_tile next = true
  /\ (sum_board next = sum_board b + 2 \/ sum_board next = sum_board b + 4)
  /\ count_tiles next = S (count_tiles (board (move b d)))
  /\ g' = after_calls 2 g.
Proof.
  intros Hsq Hm Hs.
  destruct (spawn_inv G _ _ _ _ (move_leaves_room b d Hsq Hm) Hs)
    as [r [c [v [Hc [Hv [-> ->]]]]]].
  assert (Hnz : (v =? 0) = false) by (destruct Hv; subst; reflexivity).
  split; [|split; [|split; [|split; [|reflexivity]]]].
  - apply (is_grid_square (length b)), set_cell_grid. now apply move_is_grid.
  - apply set_cell_has_tile; [exact Hc|]. destruct Hv; subst; discriminate.
  - rewrite <- (move_conserves_sum b d Hsq), !sum_board_cells.
    rewrite (cells_sum_set_cell _ _ r c 0 v Hc). destruct Hv; subst; lia.
  - apply Nat2Z.inj. rewrite Nat2Z.inj_succ, !count_tiles_cells.
    rewrite (cells_sum_set_cell _ _ r c 0 v Hc), Hnz. simpl. lia.
Qed.

(** X17: after a move that was carried out from a square board, the
    status tells the truth about the new board: it is "won" exactly when
    some cell holds at least 2048; otherwise it is "over" exactly when no
    direction moves the board, and "playing" exactly when some direction
    does. *)
Theorem status_is_accurate (G : Type) `{RandomSource G} (dir : Direction)
    (s s' : UI.state G) :
  square (UI.board s) -> acts dir s = true -> applyMove dir s = Normal s' ->
  (UI.status s' = Won <-> has2048 (UI.board s') = true)
  /\ (UI.status s' = Over
      <-> has2048 (UI.board s') = false
          /\ forall d, moved (move (UI.board s') d) = false)
  /\ (UI.status s' = Playing
      <-> has2048 (UI.board s') = false
          /\ exists d, moved (move (UI.board s') d) = true).
Proof.
  intros Hsq Ha Hs.
  destruct (applyMove_acts dir s s' Ha Hs) as [next [rng [Hspawn ->]]].
  assert (Hm : moved (move (UI.board s) dir) = true).
  { unfold acts in Ha. now apply andb_true_iff in Ha. }
  destruct (turn_board G _ _ _ _ _ Hsq Hm Hspawn) as [Hsqn [Htile _]].
  cbn [UI.board UI.status].
  destruct (has2048 next) eqn:Hw.
  - repeat split; try discriminate; intros [E _]; discriminate.
  - destruct (hasMoves next) eqn:Hh.
    + destruct (hasMoves_true_moves next Hsqn Htile Hh) as [d Hd].
      repeat split; try discriminate; eauto.
      intros [_ Hall]. rewrite Hall in Hd. discriminate.
    + pose proof (fun d => hasMoves_false_blocked next d Hsqn Hh) as Hall.
      repeat split; try discriminate; auto.
      intros [_ [d Hd]]. rewrite Hall in Hd. discriminate.
Qed.

Lemma status_is_accurate_witness :
  (UI.status session_mixed_left = Won
   <-> has2048 (UI.board session_mixed_left) = true)
  /\ (UI.status session_mixed_left = Over
      <-> has2048 (UI.board session_mixed_left) = false
          /\ forall d, moved (move (UI.board session_mixed_left) d) = false)
  /\ (UI.status session_mixed_left = Playing
      <-> has2048 (UI.board session_mixed_left) = false
          /\ exists d, moved (move (UI.board session_mixed_left) d) = true).
Proof.
  apply (status_is_accurate SeededRng Left session_mixed session_mixed_left);
    reflexivity.
Defined.

(** X18: a move that was carried out from a square board raises the sum
    of the tiles by exactly the spawned tile (2 or 4), puts one tile more
    on the board than the move left, adds the move's gain to the score,
    counts one move, and calls the random source twice. *)
Theorem turn_accounting (G : Type) `{RandomSource G} (dir : Direction)
    (s s' : UI.state G) :
  square (UI.board s) -> acts dir s = true -> applyMove dir s = Normal s' ->
  (sum_board (UI.board s') = sum_board (UI.board s) + 2
   \/ sum_board (UI.board s') = sum_board (UI.board s) + 4)
  /\ count_tiles (UI.board s')
     = S (count_tiles (board (move (UI.board s) dir)))
  /\ UI.score s' = UI.score s + gained (move (UI.board s) dir)
  /\ UI.moves s' = UI.moves s + 1
  /\ UI.rngRef s' = after_calls 2 (UI.rngRef s).
Proof.
  intros Hsq Ha Hs.
  destruct (applyMove_acts dir s s' Ha Hs) as [next [rng [Hspawn ->]]].
  assert (Hm : moved (move (UI.board s) dir) = true).
  { unfold acts in Ha. now apply andb_true_iff in Ha. }
  destruct (turn_board G _ _ _ _ _ Hsq Hm Hspawn) as [_ [_ [Hsum [Hcount Hrng]]]].
  cbn [UI.board UI.score UI.moves UI.rngRef]. auto.
Qed.

Lemma turn_accounting_witness :
  (sum_board (UI.board session_mixed_left)
   = sum_board (UI.board session_mixed) + 2
   \/ sum_board (UI.board session_mixed_left)
      = sum_board (UI.board session_mixed) + 4)
  /\ count_tiles (UI.board session_mixed_left)
     = S (count_tiles (board (move (UI.board session_mixed) Left)))
  /\ UI.score session_mixed_left
     = UI.score session_mixed + gained (move (UI.board session_mixed) Left)
  /\ UI.moves session_mixed_left = UI.moves session_mixed + 1
  /\ UI.rngRef session_mixed_left = after_calls 2 (UI.rngRef session_mixed).
Proof.
  apply (turn_accounting SeededRng Left session_mixed session_mixed_left);
    reflexivity.
Defined.

(** X19: [applyMove] leaves the session untouched exactly when the game
    is not being played, is paused, or the move does not change the
    board: a blocked move pushes no undo entry, spawns no tile and counts
    no move. *)
Theorem applyMove_idle_iff (G : Type) `{RandomSource G} (dir : Direction)
    (s : UI.state G) :
  applyMove dir s = Normal s
  <-> not_playing (UI.status s) = true
      \/ UI.isRunning s = false
      \/ moved (move (UI.board s) dir) = false.
Proof.
  split.
  - intros Hs. destruct (acts dir s) eqn:Ha.
    + destruct (applyMove_acts dir s s Ha Hs) as [next [rng [_ E]]].
      apply (f_equal UI.moves) in E. cbn [UI.moves] in E. lia.
    + unfold acts in Ha.
      destruct (not_playing (UI.status s)); [now left|].
      destruct (UI.isRunning s); [|now right; left].
      simpl in Ha. now right; right.
  - intros Hidle. apply applyMove_idle. unfold acts.
    destruct Hidle as [-> | [-> | ->]]; simpl;
      rewrite ?andb_false_r; reflexivity.
Qed.
